(** * env-populate: placeholder resolution and merge engine

    A shallow embedding of the TypeScript sources under [src/commands]
    (parseEnvLine, parseEnvFile, normalizePlaceholderName,
    generateEnvLocalLines, mergeEnvLocal, writeEnvFile, parseKeyValuePairs,
    fetchFromSupabaseJSON, generateEnvAction) and of the legacy single-file
    version of the tool (maybeGetSupabasePlaceholders), followed by the
    properties of the specification that concern them.

    Conventions of the embedding:
    - a JavaScript string is a [string]: a sequence of code units, taken in
      the range 0..255 that [ascii] offers;
    - a [Map<string, V>] is an insertion-ordered association list ([JsMap]);
    - a plain object used as a dictionary ([PlaceholdersMap]) is a
      [gmap string string] for its own properties, read through
      [Object.prototype] as JavaScript does ([obj_get]);
    - a thrown [Error] is the [inl] of a sum. *)

From Stdlib Require Import Ascii String.
From stdpp Require Import base option list gmap strings.

Local Open Scope string_scope.
Local Open Scope list_scope.

(* ================================================================== *)
(** ** Characters and the string primitives of the runtime *)
(* ================================================================== *)

(** [WhiteSpace] and [LineTerminator] code units below 256: TAB, LF, VT, FF,
    CR, SPACE and NBSP.  This is the class of [\s] and of [String.prototype.trim]. *)
Definition isSpace (c : ascii) : bool :=
  match c with
  | "009" | "010" | "011" | "012" | "013" | " " | "160" => true
  | _ => false
  end%char.

(** Line terminators below 256: the characters that [.] does not match. *)
Definition isLineTerminator (c : ascii) : bool :=
  match c with
  | "010" | "013" => true
  | _ => false
  end%char.

(** The class [[\w.-]]: ASCII letters, digits, underscore, dot and dash. *)
Definition isKeyChar (c : ascii) : bool :=
  let n := nat_of_ascii c in
  (Nat.leb 65 n && Nat.leb n 90) || (Nat.leb 97 n && Nat.leb n 122)
  || (Nat.leb 48 n && Nat.leb n 57)
  || match c with "_" | "." | "-" => true | _ => false end%char.

Fixpoint allChars (p : ascii -> bool) (s : string) : bool :=
  match s with
  | EmptyString => true
  | String c s' => p c && allChars p s'
  end.

(** Longest prefix of [s] in the class [p], and what follows it. *)
Fixpoint spanChars (p : ascii -> bool) (s : string) : string * string :=
  match s with
  | EmptyString => (EmptyString, EmptyString)
  | String c s' =>
      if p c then let '(a, b) := spanChars p s' in (String c a, b)
      else (EmptyString, s)
  end.

(** [s.trimStart()] *)
Fixpoint trimStart (s : string) : string :=
  match s with
  | EmptyString => EmptyString
  | String c s' => if isSpace c then trimStart s' else s
  end.

(** [s.trimEnd()] *)
Fixpoint trimEnd (s : string) : string :=
  match s with
  | EmptyString => EmptyString
  | String c s' =>
      match trimEnd s' with
      | EmptyString => if isSpace c then EmptyString else String c EmptyString
      | t => String c t
      end
  end.

(** [s.trim()] *)
Definition trim (s : string) : string := trimEnd (trimStart s).

(** [s.startsWith(p)] is [String.prefix p s]. *)
Definition startsWith (p s : string) : bool := String.prefix p s.

Fixpoint mapChars (f : ascii -> ascii) (s : string) : string :=
  match s with
  | EmptyString => EmptyString
  | String c s' => String (f c) (mapChars f s')
  end.

(** [toLowerCase] on one code unit: A-Z, and the Latin-1 capitals
    U+00C0..U+00DE except the multiplication sign U+00D7. *)
Definition lowerChar (c : ascii) : ascii :=
  let n := nat_of_ascii c in
  if (Nat.leb 65 n && Nat.leb n 90)
     || (Nat.leb 192 n && Nat.leb n 222 && negb (Nat.eqb n 215))
  then ascii_of_nat (n + 32) else c.

(** [toUpperCase] on one code unit: a-z, and the Latin-1 small letters
    U+00E0..U+00FE except the division sign U+00F7.  (The three code units
    below 256 whose upper case leaves the range, U+00B5, U+00DF and U+00FF,
    are left as they are.) *)
Definition upperChar (c : ascii) : ascii :=
  let n := nat_of_ascii c in
  if (Nat.leb 97 n && Nat.leb n 122)
     || (Nat.leb 224 n && Nat.leb n 254 && negb (Nat.eqb n 247))
  then ascii_of_nat (n - 32) else c.

Definition toLowerCase : string -> string := mapChars lowerChar.
Definition toUpperCase : string -> string := mapChars upperChar.

(** [s.split(sep)] for a one-character separator: never empty, one more
    segment than there are separators. *)
Fixpoint splitOn (sep : ascii) (s : string) : list string :=
  match s with
  | EmptyString => [EmptyString]
  | String c s' =>
      if decide (c = sep) then EmptyString :: splitOn sep s'
      else match splitOn sep s' with
           | [] => [String c EmptyString]
           | seg :: segs => String c seg :: segs
           end
  end.

(** [segs.join(sep)] *)
Fixpoint join (sep : string) (segs : list string) : string :=
  match segs with
  | [] => EmptyString
  | [s] => s
  | s :: rest => s ++ sep ++ join sep rest
  end.

(** The one-character string "\n". *)
Definition LF : string := String "010"%char EmptyString.

(* ================================================================== *)
(** ** EnvLine.ts: the line model *)
(* ================================================================== *)

(** [type EnvLine = {type:'comment', text} | {type:'blank', text:''}
                  | {type:'keyvalue', key, value, raw}] *)
Inductive EnvLine : Type :=
  | Comment (text : string)
  | Blank
  | KeyValue (key value raw : string).

Global Instance EnvLine_eq_dec : EqDecision EnvLine.
Proof. solve_decision. Defined.

Definition isKeyValue (ln : EnvLine) : bool :=
  match ln with KeyValue _ _ _ => true | _ => false end.

Definition lineKey (ln : EnvLine) : option string :=
  match ln with KeyValue k _ _ => Some k | _ => None end.

Definition lineValue (ln : EnvLine) : option string :=
  match ln with KeyValue _ v _ => Some v | _ => None end.

(** The [text] field of a comment or blank line. *)
Definition lineText (ln : EnvLine) : string :=
  match ln with Comment t => t | _ => EmptyString end.

(* ================================================================== *)
(** ** [Map<string, V>]: insertion-ordered, one entry per key *)
(* ================================================================== *)

Module JsMap.
Section Ops.
Context {V : Type}.

Definition t : Type := list (string * V).

Definition empty : t := [].

(** [m.get(k)] ([None] is [undefined]) *)
Fixpoint get (k : string) (m : t) : option V :=
  match m with
  | [] => None
  | (k', v) :: m' => if decide (k' = k) then Some v else get k m'
  end.

(** [m.has(k)] *)
Definition has (k : string) (m : t) : bool :=
  match get k m with Some _ => true | None => false end.

(** [m.set(k, v)]: an existing key keeps its place in the iteration
    order, a new key goes last. *)
Fixpoint set (k : string) (v : V) (m : t) : t :=
  match m with
  | [] => [(k, v)]
  | (k', v') :: m' =>
      if decide (k' = k) then (k', v) :: m' else (k', v') :: set k v m'
  end.

(** [m.delete(k)] *)
Fixpoint delete (k : string) (m : t) : t :=
  match m with
  | [] => []
  | (k', v') :: m' =>
      if decide (k' = k) then m' else (k', v') :: delete k m'
  end.

(** [m.values()] in iteration order *)
Definition values (m : t) : list V := map snd m.

Definition keys (m : t) : list string := map fst m.
End Ops.
Global Arguments t : clear implicits.
End JsMap.

(* ================================================================== *)
(** ** mergeEnvLocal.ts *)
(* ================================================================== *)

(** Lines 10-15: the lookup of the new key/value lines, later duplicates
    overwriting earlier ones. *)
Definition collectKeyValues (lines : list EnvLine) : JsMap.t EnvLine :=
  foldl (fun m ln =>
           match ln with
           | KeyValue k _ _ => JsMap.set k ln m
           | _ => m
           end) JsMap.empty lines.

(** The two mutable locals of the walk over [existingLines]. *)
Record MergeState : Type := mkMergeState {
  merged : list EnvLine;
  newMap : JsMap.t EnvLine
}.

Definition push (ln : EnvLine) (st : MergeState) : MergeState :=
  mkMergeState (merged st ++ [ln]) (newMap st).

(** Lines 19-38: the body of the loop over [existingLines].  The map holds
    lines only, so [newMap.has(key)] is [newMap.get(key)] being there. *)
Definition mergeStep (override : bool) (st : MergeState) (ln : EnvLine)
  : MergeState :=
  match ln with
  | KeyValue key _ _ =>
      if negb override then
        mkMergeState (merged st ++ [ln]) (JsMap.delete key (newMap st))
      else
        match JsMap.get key (newMap st) with
        | Some nl =>
            mkMergeState (merged st ++ [nl]) (JsMap.delete key (newMap st))
        | None => push ln st
        end
  | _ => push ln st
  end.

Definition mergeEnvLocal (existingLines newLines : list EnvLine)
    (override : bool) : list EnvLine :=
  let st := foldl (mergeStep override)
                  (mkMergeState [] (collectKeyValues newLines))
                  existingLines in
  merged st ++ JsMap.values (newMap st).

(** The value the code itself would read for [k] in a line list: the lookup
    it builds at lines 10-15 (and again in writeEnvFile), last line wins. *)
Definition valueOfKey (k : string) (lines : list EnvLine) : option string :=
  JsMap.get k (collectKeyValues lines) ≫= lineValue.

(** The keys of the key/value lines of a file, in order. *)
Definition keysOf (lines : list EnvLine) : list string := omap lineKey lines.

Definition hasKey (k : string) (ln : EnvLine) : bool :=
  bool_decide (lineKey ln = Some k).

(** How often [k] is assigned in a file. *)
Definition occurrences (k : string) (lines : list EnvLine) : nat :=
  length (List.filter (hasKey k) lines).

(** *** The loop of mergeEnvLocal, one line at a time

    [stepLine] is the line that one iteration pushes on [merged], [stepMap]
    the lookup it leaves; [walkLines] and [walkMap] iterate them. *)

Definition stepLine (override : bool) (m : JsMap.t EnvLine) (ln : EnvLine)
  : EnvLine :=
  match ln with
  | KeyValue key _ _ =>
      if negb override then ln
      else match JsMap.get key m with Some nl => nl | None => ln end
  | _ => ln
  end.

Definition stepMap (override : bool) (m : JsMap.t EnvLine) (ln : EnvLine)
  : JsMap.t EnvLine :=
  match ln with
  | KeyValue key _ _ =>
      if negb override then JsMap.delete key m
      else match JsMap.get key m with
           | Some _ => JsMap.delete key m
           | None => m
           end
  | _ => m
  end.

Fixpoint walkLines (override : bool) (existing : list EnvLine)
    (m : JsMap.t EnvLine) : list EnvLine :=
  match existing with
  | [] => []
  | ln :: rest =>
      stepLine override m ln :: walkLines override rest (stepMap override m ln)
  end.

Fixpoint walkMap (override : bool) (existing : list EnvLine)
    (m : JsMap.t EnvLine) : JsMap.t EnvLine :=
  match existing with
  | [] => m
  | ln :: rest => walkMap override rest (stepMap override m ln)
  end.

(** What the walk maintains about the lookup built from [newLines]: one
    entry per key, each entry a key/value line of [newLines] stored under
    its own key. *)
Definition lookupOf (newLines : list EnvLine) (m : JsMap.t EnvLine) : Prop :=
  NoDup (JsMap.keys m) ∧
  ∀ k ln, (k, ln) ∈ m → lineKey ln = Some k ∧ ln ∈ newLines.

(* ================================================================== *)
(** ** parseEnvLine.ts and parseEnvFile.ts *)
(* ================================================================== *)

(** What ENV_LINE_REGEX matches in a line.  The expression is, from the
    start of the line to its end: one or more characters of [[\w.-]] (the
    first capture), white space, [=], white space, and any characters but
    line terminators (the second capture).  The record holds the two
    captures and the two runs of white space that are skipped. *)
Record EnvLineMatch : Type := mkEnvLineMatch {
  m_key : string;
  m_ws1 : string;
  m_ws2 : string;
  m_value : string
}.

(** [line.match(ENV_LINE_REGEX)].  Every quantifier of the expression is
    greedy and is followed by something its class excludes (a key character
    is neither white space nor [=], white space is not [=]), and the second
    capture has to reach the end of the line whatever white space was
    skipped before it, so the
    leftmost-longest split below is the only match there can be. *)
Definition matchEnvLine (line : string) : option EnvLineMatch :=
  let '(key, r1) := spanChars isKeyChar line in
  match key with
  | EmptyString => None
  | String _ _ =>
      let '(ws1, r2) := spanChars isSpace r1 in
      match r2 with
      | String "="%char r3 =>
          let '(ws2, value) := spanChars isSpace r3 in
          if allChars (fun c => negb (isLineTerminator c)) value
          then Some (mkEnvLineMatch key ws1 ws2 value)
          else None
      | _ => None
      end
  end.

Definition isEmpty (s : string) : bool :=
  match s with EmptyString => true | _ => false end.

Definition parseEnvLine (line : string) : EnvLine :=
  if isEmpty (trim line) then Blank
  else if startsWith "#" (trimStart line) then Comment line
  else match matchEnvLine line with
       | None => Comment line
       | Some m => KeyValue (m_key m) (m_value m) line
       end.

(** [content.split(/\r?\n/)]: a boundary at every LF, which takes a CR
    that stands right before it along; any other CR stays in its line. *)
Fixpoint splitLines (content : string) : list string :=
  match content with
  | EmptyString => [EmptyString]
  | String c rest =>
      if decide (c = "010"%char) then EmptyString :: splitLines rest
      else if bool_decide (c = "013"%char) && startsWith LF rest
      then splitLines rest
      else match splitLines rest with
           | [] => [String c EmptyString]
           | seg :: segs => String c seg :: segs
           end
  end.

(** parseEnvFile, on the text that [fs.readFileSync] returned. *)
Definition parseEnvFile (content : string) : list EnvLine :=
  parseEnvLine <$> splitLines content.

(** The text with every CR-LF pair turned into LF. *)
Fixpoint normalizeNewlines (content : string) : string :=
  match content with
  | EmptyString => EmptyString
  | String c rest =>
      if bool_decide (c = "013"%char) && startsWith LF rest
      then normalizeNewlines rest
      else String c (normalizeNewlines rest)
  end.

(** A line that parsing and rendering give back as it was: not a line of
    white space only (unless empty), and, when it is an assignment, no
    white space on either side of its [=]. *)
Definition lossless (line : string) : bool :=
  if isEmpty (trim line) then isEmpty line
  else if startsWith "#" (trimStart line) then true
  else match matchEnvLine line with
       | None => true
       | Some m => isEmpty (m_ws1 m) && isEmpty (m_ws2 m)
       end.

(* ================================================================== *)
(** ** writeEnvFile.ts *)
(* ================================================================== *)

(** Lines 68-76: the text of one line of the output. *)
Definition renderLine (ln : EnvLine) : string :=
  match ln with
  | Comment text => text
  | Blank => EmptyString
  | KeyValue key value _ => key ++ "=" ++ value
  end.

(** Lines 68-78: [output.join('\n')]. *)
Definition renderLines (lines : list EnvLine) : string :=
  join LF (renderLine <$> lines).

Definition extraLine (k v : string) : EnvLine :=
  KeyValue k v (k ++ "=" ++ v).

(** Lines 22-44, over [Object.entries(extraVars)]. *)
Definition applyExtraVars (override : bool) (extraVars : list (string * string))
    (linesMap : JsMap.t EnvLine) : JsMap.t EnvLine :=
  foldl (fun m kv =>
           let '(k, v) := kv in
           if JsMap.has k m then
             if override then JsMap.set k (extraLine k v) m else m
           else JsMap.set k (extraLine k v) m)
        linesMap extraVars.

Record WriteState : Type := mkWriteState {
  finalLines : list EnvLine;
  linesMap : JsMap.t EnvLine
}.

(** Lines 48-60. *)
Definition writeStep (st : WriteState) (ln : EnvLine) : WriteState :=
  match ln with
  | KeyValue key _ _ =>
      match JsMap.get key (linesMap st) with
      | Some l =>
          mkWriteState (finalLines st ++ [l]) (JsMap.delete key (linesMap st))
      | None => st
      end
  | _ => mkWriteState (finalLines st ++ [ln]) (linesMap st)
  end.

(** Lines 62-66.  [includes] compares object identity; the lines left in
    the map at this point were created at lines 27 and 37 under keys that
    no line of [finalLines] carries, so comparing the fields decides the
    same. *)
Definition pushLeftover (fl : list EnvLine) (ln : EnvLine) : list EnvLine :=
  if bool_decide (ln ∈ fl) then fl else fl ++ [ln].

(** writeEnvFile: the text written to [filePath]. *)
Definition writeEnvFile (lines : list EnvLine)
    (extraVars : list (string * string)) (override : bool) : string :=
  let m := applyExtraVars override extraVars (collectKeyValues lines) in
  let st := foldl writeStep (mkWriteState [] m) lines in
  renderLines (foldl pushLeftover (finalLines st) (JsMap.values (linesMap st))).

(* ================================================================== *)
(** ** Plain objects used as dictionaries *)
(* ================================================================== *)

(** The values that reading a property of a [PlaceholdersMap] can give: a
    string it holds, [undefined], or a member inherited from
    [Object.prototype] (a built-in function, or the prototype object itself
    for [__proto__]). *)
Inductive JsValue : Type :=
  | JsUndefined
  | JsString (s : string)
  | JsNative (name : string)
  | JsObjectPrototype.

Global Instance JsValue_eq_dec : EqDecision JsValue.
Proof. solve_decision. Defined.

(** The conversion to a string that a template literal performs. *)
Definition toStringJs (v : JsValue) : string :=
  match v with
  | JsUndefined => "undefined"
  | JsString s => s
  | JsNative name => "function " ++ name ++ "() { [native code] }"
  | JsObjectPrototype => "[object Object]"
  end.

(** The function-valued members of [Object.prototype] other than
    [constructor]. *)
Definition objectPrototypeMethods : list string :=
  ["hasOwnProperty"; "isPrototypeOf"; "propertyIsEnumerable";
   "toLocaleString"; "toString"; "valueOf";
   "__defineGetter__"; "__defineSetter__";
   "__lookupGetter__"; "__lookupSetter__"].

(** Reading [name] on [Object.prototype] with an ordinary object as the
    receiver. *)
Definition objectPrototype_get (name : string) : JsValue :=
  if bool_decide (name = "constructor") then JsNative "Object"
  else if bool_decide (name ∈ objectPrototypeMethods) then JsNative name
  else if bool_decide (name = "__proto__") then JsObjectPrototype
  else JsUndefined.

(** [obj[name]] on an object literal whose own properties are [obj]: the
    own property, or else what the prototype has. *)
Definition obj_get (obj : gmap string string) (name : string) : JsValue :=
  match obj !! name with
  | Some s => JsString s
  | None => objectPrototype_get name
  end.

(** [name in obj] *)
Definition obj_in (name : string) (obj : gmap string string) : bool :=
  match obj_get obj name with JsUndefined => false | _ => true end.

(** [obj[name] = s] for a string [s]: an own property, but for
    [__proto__], whose setter ignores a string. *)
Definition obj_set (name s : string) (obj : gmap string string)
  : gmap string string :=
  if bool_decide (name = "__proto__") then obj else <[name := s]> obj.

(* ================================================================== *)
(** ** normalizePlaceholderName.ts and generateEnvLocalLines.ts *)
(* ================================================================== *)

(** [raw.trim().toLowerCase().replace(/_/g, '-')] *)
Definition normalizePlaceholderName (raw : string) : string :=
  mapChars (fun c => if bool_decide (c = "_"%char) then "-"%char else c)
           (toLowerCase (trim raw)).

(** The string without its last character, and that character. *)
Fixpoint splitLast (s : string) : option (string * ascii) :=
  match s with
  | EmptyString => None
  | String c s' =>
      match splitLast s' with
      | None => Some (EmptyString, c)
      | Some (init, l) => Some (String c init, l)
      end
  end.

(** The capture of the whole-value bracket expression, an opening angle
    bracket, any characters but line terminators, a closing angle bracket
    at the end of the string. *)
Definition matchPlaceholder (rawValue : string) : option string :=
  match rawValue with
  | String "<"%char r =>
      match splitLast r with
      | Some (inner, ">"%char) =>
          if allChars (fun c => negb (isLineTerminator c)) inner
          then Some inner else None
      | _ => None
      end
  | _ => None
  end.

(** The callback of the [map] of generateEnvLocalLines.  The [value] of the
    replaced line is kept as the string it renders to: after this function
    the lines are only merged and written. *)
Definition resolveLine (placeholderMap : gmap string string) (line : EnvLine)
  : EnvLine :=
  match line with
  | KeyValue key value raw =>
      match matchPlaceholder (trim value) with
      | None => line
      | Some inner =>
          let placeholderName := normalizePlaceholderName inner in
          match obj_get placeholderMap placeholderName with
          | JsUndefined => line
          | replacement =>
              KeyValue key (toStringJs replacement)
                       (key ++ "=" ++ toStringJs replacement)
          end
      end
  | _ => line
  end.

Definition generateEnvLocalLines (envExampleLines : list EnvLine)
    (placeholderMap : gmap string string) : list EnvLine :=
  resolveLine placeholderMap <$> envExampleLines.

(* ================================================================== *)
(** ** fetchFromSupabaseJSON.ts, and the legacy maybeGetSupabasePlaceholders *)
(* ================================================================== *)

(** A value of a top-level field of the status object.  The tool reads
    the strings; of the other values it only sees that they are no string. *)
Inductive Json : Type :=
  | JNull
  | JBool (b : bool)
  | JNumber (n : Z)
  | JString (s : string)
  | JArray
  | JObject.

(** What running [supabase status -o json] came to.  [StatusObject] holds
    the own properties of the object that [JSON.parse] returned, in the
    order of [Object.entries]. *)
Inductive StatusOutcome : Type :=
  | LaunchFailed
  | NonZeroExit
  | Unparsable
  | StatusObject (jsonData : JsMap.t Json).

(** Lines 51-56 of fetchFromSupabaseJSON.ts: one missing name.  A field of
    [jsonData] counts when it is a non-empty string; what [jsonData]
    inherits from its prototype is no string. *)
Definition fetchStep (jsonData : JsMap.t Json)
    (placeholders : gmap string string) (missingName : string)
  : gmap string string :=
  let upperName := toUpperCase missingName in
  match JsMap.get upperName jsonData with
  | Some (JString (String c s)) =>
      obj_set missingName (String c s) placeholders
  | _ => placeholders
  end.

Definition fetchFromSupabaseJSON (placeholderNames : list string)
    (status : StatusOutcome) : gmap string string :=
  match placeholderNames, status with
  | _ :: _, StatusObject jsonData =>
      foldl (fetchStep jsonData) ∅ placeholderNames
  | _, _ => ∅
  end.

Definition SUPABASE_JSON_TO_PLACEHOLDER : JsMap.t string :=
  [("API_URL", "supabase-api-url");
   ("ANON_KEY", "supabase-anon-key");
   ("DB_URL", "supabase-db-url");
   ("GRAPHQL_URL", "supabase-graphql-url");
   ("SERVICE_ROLE_KEY", "supabase-service-role-key")].

(** The body of the loop of maybeGetSupabasePlaceholders over
    [Object.entries(jsonData)]. *)
Definition legacyStep (missingPlaceholders : list string)
    (placeholders : gmap string string) (entry : string * Json)
  : gmap string string :=
  match entry with
  | (key, JString val) =>
      let upperKey := toUpperCase key in
      match JsMap.get upperKey SUPABASE_JSON_TO_PLACEHOLDER with
      | Some placeholderName =>
          let p1 :=
            if bool_decide (placeholderName ∈ missingPlaceholders)
            then obj_set placeholderName val placeholders
            else placeholders in
          if bool_decide (upperKey = "API_URL")
             && bool_decide ("supabase-url" ∈ missingPlaceholders)
          then obj_set "supabase-url" val p1
          else p1
      | None => placeholders
      end
  | _ => placeholders
  end.

Definition maybeGetSupabasePlaceholders (missingPlaceholders : list string)
    (status : StatusOutcome) : gmap string string :=
  match status with
  | StatusObject jsonData =>
      foldl (legacyStep missingPlaceholders) ∅ jsonData
  | _ => ∅
  end.

(* ================================================================== *)
(** ** parseKeyValuePairs.ts *)
(* ================================================================== *)

Definition DQUOTE : string := String "034"%char EmptyString.

(** The message of the [Error] thrown for a pair. *)
Definition invalidPair (p : string) : string :=
  "Invalid key-value pair: " ++ DQUOTE ++ p ++ DQUOTE
  ++ ". Must be " ++ DQUOTE ++ "key=value" ++ DQUOTE.

(** Lines 26-32, one pair: [const [k, v] = p.split('=')] takes the first
    two segments ([None] where there is none), [!k || !v] throws, and the
    assignment that follows uses the two trimmed. *)
Definition parsePair (p : string) : string + string * string :=
  let segs := splitOn "="%char p in
  match segs !! 0, segs !! 1 with
  | Some (String a k'), Some (String b v') =>
      inr (trim (String a k'), trim (String b v'))
  | _, _ => inl (invalidPair p)
  end.

Definition parseKeyValuePairs (input : string)
  : string + gmap string string :=
  if isEmpty (trim input) then inr ∅
  else
    foldl (fun acc p =>
             match acc with
             | inl e => inl e
             | inr result =>
                 match parsePair p with
                 | inl e => inl e
                 | inr (k, v) => inr (obj_set k v result)
                 end
             end)
          (inr ∅) (splitOn ","%char input).

(** The segment of a pair before its first [=], and the segment between
    its first and its second [=] (empty when the pair has no [=]). *)
Definition firstSegment (p : string) : string :=
  nth 0 (splitOn "="%char p) EmptyString.

Definition secondSegment (p : string) : string :=
  nth 1 (splitOn "="%char p) EmptyString.

Definition malformedPair (p : string) : bool :=
  isEmpty (firstSegment p) || isEmpty (secondSegment p).

(** The assignment that a well-formed pair makes. *)
Definition storePair (result : gmap string string) (p : string)
  : gmap string string :=
  obj_set (trim (firstSegment p)) (trim (secondSegment p)) result.

(* ================================================================== *)
(** ** generateEnvAction.ts *)
(* ================================================================== *)

(** Lines 97-99: the names handed to fetchFromSupabaseJSON. *)
Definition missingPlaceholders (usedPlaceholders : list string)
    (userPlaceholders : gmap string string) : list string :=
  List.filter (fun p => negb (obj_in p userPlaceholders)) usedPlaceholders.

(** Lines 103-106: [{...supabaseMap, ...userPlaceholders}], the own
    properties of the first object, then those of the second over them. *)
Definition finalPlaceholders (supabaseMap userPlaceholders : gmap string string)
  : gmap string string :=
  userPlaceholders ∪ supabaseMap.

(** The options that the processing of one template reads ([merge],
    [override] and [dryRun] of FillOptions). *)
Record FillOptions : Type := mkFillOptions {
  o_merge : bool;
  o_override : bool;
  o_dryRun : bool
}.

(** Line 109 *)
Definition canOverride (options : FillOptions) : bool :=
  negb (o_merge options) && o_override options.

(** Lines 128-179, for one template: [replaced] are its resolved lines,
    [destination] is the text of the output file when it exists.  The
    result is the text written to the output file, [None] when the file is
    not written. *)
Definition processExample (options : FillOptions) (replaced : list EnvLine)
    (extraVars : list (string * string)) (destination : option string)
  : option string :=
  match destination with
  | Some content =>
      if negb (o_merge options) then None
      else
        let existing := parseEnvFile content in
        let merged := mergeEnvLocal existing replaced (canOverride options) in
        if o_dryRun options then None
        else Some (writeEnvFile merged extraVars (canOverride options))
  | None =>
      if o_dryRun options then None
      else
        let newFileMerged := mergeEnvLocal [] replaced false in
        Some (writeEnvFile newFileMerged extraVars (canOverride options))
  end.


(* ================================================================== *)
(** ** validatePlaceholderKey.ts and parseIgnoreList.ts *)
(* ================================================================== *)

(** The class of PLACEHOLDER_REGEX: ASCII letters, digits, underscore and
    dash. *)
Definition isPlaceholderChar (c : ascii) : bool :=
  let n := nat_of_ascii c in
  (Nat.leb 65 n && Nat.leb n 90) || (Nat.leb 97 n && Nat.leb n 122)
  || (Nat.leb 48 n && Nat.leb n 57)
  || match c with "_" | "-" => true | _ => false end%char.

(** [PLACEHOLDER_REGEX.test(s)]: one or more characters of the class, from
    the start of the string to its end. *)
Definition testPlaceholderRegex (s : string) : bool :=
  negb (isEmpty s) && allChars isPlaceholderChar s.

(** The message of the [Error] thrown for a key. *)
Definition invalidPlaceholder (rawKey : string) : string :=
  "Invalid placeholder name " ++ DQUOTE ++ rawKey ++ DQUOTE
  ++ ". Must match /^[a-zA-Z0-9_-]+$/".

Definition validatePlaceholderKey (rawKey : string) : string + string :=
  let normalized := normalizePlaceholderName rawKey in
  if testPlaceholderRegex normalized then inr normalized
  else inl (invalidPlaceholder rawKey).

(** What is left of the class of PLACEHOLDER_REGEX once a name is
    normalized: small ASCII letters, digits and dash. *)
Definition isNormalizedChar (c : ascii) : bool :=
  let n := nat_of_ascii c in
  (Nat.leb 97 n && Nat.leb n 122) || (Nat.leb 48 n && Nat.leb n 57)
  || match c with "-" => true | _ => false end%char.

Definition parseIgnoreList (input : string) : list string :=
  if isEmpty (trim input) then []
  else List.filter (fun x => negb (isEmpty x))
                   (trim <$> splitOn ","%char input).

(* ================================================================== *)
(** ** generateEnvAction.ts, the names that the templates use *)
(* ================================================================== *)

(** [set.add(x)] on a [Set<string>] kept in insertion order. *)
Definition setAdd (x : string) (set : list string) : list string :=
  if bool_decide (x ∈ set) then set else set ++ [x].

(** Lines 75-81: the placeholder names that the lines of one template use,
    added to the names found so far. *)
Definition collectUsed (usedPlaceholders : list string)
    (lines : list EnvLine) : list string :=
  foldl (fun used ln =>
           match ln with
           | KeyValue _ value _ =>
               match matchPlaceholder (trim value) with
               | Some inner => setAdd (normalizePlaceholderName inner) used
               | None => used
               end
           | _ => used
           end)
        usedPlaceholders lines.


(** The number of line feeds of a text. *)
Fixpoint countLF (content : string) : nat :=
  match content with
  | EmptyString => 0
  | String c rest =>
      (if decide (c = "010"%char) then 1 else 0) + countLF rest
  end.

(** Lines 46-66 of writeEnvFile.ts: the array [finalLines] that is
    rendered. *)
Definition writeFinalLines (lines : list EnvLine)
    (extraVars : list (string * string)) (override : bool) : list EnvLine :=
  let m := applyExtraVars override extraVars (collectKeyValues lines) in
  let st := foldl writeStep (mkWriteState [] m) lines in
  foldl pushLeftover (finalLines st) (JsMap.values (linesMap st)).

(** A string that does not begin with white space. *)
Definition noLeadingSpace (s : string) : Prop :=
  match s with String c _ => isSpace c = false | EmptyString => True end.

(** A string that does not end with white space. *)
Fixpoint noTrailingSpace (s : string) : Prop :=
  match s with
  | EmptyString => True
  | String c EmptyString => isSpace c = false
  | String _ s' => noTrailingSpace s'
  end.

(* ================================================================== *)
(** * Properties *)
(* ================================================================== *)

(** ** The insertion-ordered map *)

Module JsMapFacts.
Import JsMap.
Section Facts.
Context {V : Type}.
Implicit Types (m : JsMap.t V) (k : string) (v : V).

Lemma get_set_eq k v m : get k (set k v m) = Some v.
Proof.
  induction m as [|[k' v'] m IH]; simpl.
  - by rewrite decide_True.
  - destruct (decide (k' = k)) as [->|Hne]; simpl.
    + by rewrite decide_True.
    + by rewrite decide_False.
Qed.

Lemma get_set_ne k k' v m : k ≠ k' → get k' (set k v m) = get k' m.
Proof.
  intros Hne. induction m as [|[k0 v0] m IH]; simpl.
  - by rewrite decide_False.
  - destruct (decide (k0 = k)) as [->|Hk]; simpl.
    + by rewrite !decide_False.
    + destruct (decide (k0 = k')); [done | apply IH].
Qed.

Lemma get_None_keys k m : get k m = None ↔ k ∉ keys m.
Proof.
  induction m as [|[k0 v0] m IH]; simpl.
  - split; [intros _; apply not_elem_of_nil | done].
  - rewrite not_elem_of_cons. destruct (decide (k0 = k)) as [->|Hk].
    + split; [done | intros [? _]; done].
    + rewrite IH. split; [intros ?; split; [congruence | done] | tauto].
Qed.

Lemma get_Some_elem k v m : get k m = Some v → (k, v) ∈ m.
Proof.
  induction m as [|[k0 v0] m IH]; simpl; [done |].
  destruct (decide (k0 = k)) as [->|Hk].
  - intros [= ->]. apply list_elem_of_here.
  - intros H. apply list_elem_of_further, IH, H.
Qed.

Lemma keys_set k v m :
  keys (set k v m) = if has k m then keys m else keys m ++ [k].
Proof.
  unfold has. induction m as [|[k0 v0] m IH]; simpl; [done |].
  destruct (decide (k0 = k)) as [->|Hk]; simpl; [done |].
  rewrite IH. by destruct (get k m).
Qed.

Lemma NoDup_keys_set k v m : NoDup (keys m) → NoDup (keys (set k v m)).
Proof.
  intros Hnd. rewrite keys_set. unfold has.
  destruct (get k m) eqn:Hg; [done |].
  apply NoDup_app. split_and!; [done | | apply NoDup_singleton].
  intros x Hx ->%list_elem_of_singleton. by apply get_None_keys in Hg.
Qed.

Lemma elem_of_set k v m x :
  x ∈ set k v m → x = (k, v) ∨ x ∈ m.
Proof.
  induction m as [|[k0 v0] m IH]; simpl.
  - intros ->%list_elem_of_singleton. by left.
  - destruct (decide (k0 = k)) as [->|Hk];
      rewrite !elem_of_cons; intros [->|H]; auto.
    destruct (IH H); auto.
Qed.

Lemma elem_of_delete k m x : x ∈ delete k m → x ∈ m.
Proof.
  induction m as [|[k0 v0] m IH]; simpl; [done |].
  destruct (decide (k0 = k)) as [->|Hk].
  - apply list_elem_of_further.
  - rewrite !elem_of_cons. intros [->|H]; auto.
Qed.

Lemma keys_delete_subseteq k m x : x ∈ keys (delete k m) → x ∈ keys m.
Proof.
  unfold keys. rewrite !list_elem_of_fmap. intros [y [-> Hy]].
  exists y. split; [done | by eapply elem_of_delete].
Qed.

Lemma NoDup_keys_delete k m : NoDup (keys m) → NoDup (keys (delete k m)).
Proof.
  induction m as [|[k0 v0] m IH]; simpl; [done |].
  rewrite NoDup_cons. intros [Hk0 Hnd].
  destruct (decide (k0 = k)) as [->|Hk]; [done |].
  simpl. apply NoDup_cons. split; [| by apply IH].
  intros H. apply Hk0. by eapply keys_delete_subseteq.
Qed.

Lemma get_delete_eq k m : NoDup (keys m) → get k (delete k m) = None.
Proof.
  induction m as [|[k0 v0] m IH]; simpl; [done |].
  rewrite NoDup_cons. intros [Hk0 Hnd].
  destruct (decide (k0 = k)) as [->|Hk].
  - by apply get_None_keys.
  - simpl. rewrite decide_False by done. by apply IH.
Qed.

Lemma get_delete_ne k k' m : k ≠ k' → get k' (delete k m) = get k' m.
Proof.
  intros Hne. induction m as [|[k0 v0] m IH]; simpl; [done |].
  destruct (decide (k0 = k)) as [->|Hk]; simpl.
  - by rewrite decide_False.
  - destruct (decide (k0 = k')); [done | apply IH].
Qed.

Lemma delete_absent k m : get k m = None → delete k m = m.
Proof.
  induction m as [|[k0 v0] m IH]; simpl; [done |].
  destruct (decide (k0 = k)); [done |]. intros H. by rewrite IH.
Qed.
End Facts.
End JsMapFacts.

(** ** mergeEnvLocal *)

Section MergeFacts.
Import JsMap JsMapFacts.
Implicit Types (E N : list EnvLine) (m : JsMap.t EnvLine) (k : string).

Lemma mergeStep_step o st ln :
  mergeStep o st ln =
  mkMergeState (merged st ++ [stepLine o (newMap st) ln])
               (stepMap o (newMap st) ln).
Proof.
  destruct ln as [t| |key v r]; try done.
  unfold mergeStep, stepLine, stepMap, push.
  destruct o; simpl; [| done]. by destruct (get key (newMap st)).
Qed.

Lemma foldl_mergeStep o E st :
  foldl (mergeStep o) st E =
  mkMergeState (merged st ++ walkLines o E (newMap st))
               (walkMap o E (newMap st)).
Proof.
  revert st. induction E as [|ln E IH]; intros st; simpl.
  - rewrite app_nil_r. by destruct st.
  - rewrite IH, mergeStep_step. simpl. by rewrite <- app_assoc.
Qed.

(** The array that mergeEnvLocal returns: the walk over the existing lines,
    then what is left of the lookup. *)
Lemma mergeEnvLocal_walk E N o :
  mergeEnvLocal E N o =
  walkLines o E (collectKeyValues N) ++
  values (walkMap o E (collectKeyValues N)).
Proof. unfold mergeEnvLocal. by rewrite foldl_mergeStep. Qed.

Lemma stepMap_delete o m ln :
  stepMap o m ln =
  match lineKey ln with Some key => delete key m | None => m end.
Proof.
  destruct ln as [t| |key v r]; try done. simpl.
  destruct o; simpl; [| done].
  destruct (get key m) eqn:Hg; [done |]. by rewrite delete_absent.
Qed.

Lemma lookupOf_empty N : lookupOf N empty.
Proof. split; [apply NoDup_nil_2 | intros k ln H; by apply elem_of_nil in H]. Qed.

Lemma lookupOf_delete N m k : lookupOf N m → lookupOf N (delete k m).
Proof.
  intros [Hnd Hin]. split; [by apply NoDup_keys_delete |].
  intros k' ln H. apply Hin. by eapply elem_of_delete.
Qed.

Lemma lookupOf_set N m key v r :
  KeyValue key v r ∈ N → lookupOf N m →
  lookupOf N (set key (KeyValue key v r) m).
Proof.
  intros HN [Hnd Hin]. split; [by apply NoDup_keys_set |].
  intros k' ln [[= -> ->]|H]%elem_of_set; [done | by apply Hin].
Qed.

Lemma lookupOf_stepMap N o m ln : lookupOf N m → lookupOf N (stepMap o m ln).
Proof.
  intros H. rewrite stepMap_delete.
  destruct (lineKey ln); [by apply lookupOf_delete | done].
Qed.

Lemma lookupOf_foldl N L m :
  (∀ ln, ln ∈ L → ln ∈ N) → lookupOf N m →
  lookupOf N (foldl (fun m ln =>
                match ln with
                | KeyValue k _ _ => set k ln m
                | _ => m
                end) m L).
Proof.
  revert m. induction L as [|ln L IH]; intros m HL Hm; simpl; [done |].
  apply IH; [intros x Hx; apply HL; by apply list_elem_of_further |].
  destruct ln as [t| |key v r]; try done.
  apply lookupOf_set; [apply HL, list_elem_of_here | done].
Qed.

Lemma lookupOf_collect N : lookupOf N (collectKeyValues N).
Proof. apply lookupOf_foldl; [done | apply lookupOf_empty]. Qed.

Lemma lookupOf_walkMap N o E m : lookupOf N m → lookupOf N (walkMap o E m).
Proof.
  revert m. induction E as [|ln E IH]; intros m Hm; simpl; [done |].
  by apply IH, lookupOf_stepMap.
Qed.

Lemma lookupOf_get N m k ln :
  lookupOf N m → get k m = Some ln → lineKey ln = Some k ∧ ln ∈ N.
Proof. intros [_ Hin] Hg. by apply Hin, get_Some_elem. Qed.

(** The line pushed for an existing line carries the same key, or is the
    very same comment or blank line. *)
Lemma stepLine_key N o m ln :
  lookupOf N m → lineKey (stepLine o m ln) = lineKey ln.
Proof.
  intros Hm. destruct ln as [t| |key v r]; try done. simpl.
  destruct o; simpl; [| done].
  destruct (get key m) as [nl|] eqn:Hg; [| done].
  by destruct (lookupOf_get _ _ _ _ Hm Hg).
Qed.

Lemma stepLine_not_keyvalue o m ln :
  isKeyValue ln = false → stepLine o m ln = ln.
Proof. by destruct ln. Qed.

Lemma isKeyValue_lineKey ln : isKeyValue ln = true ↔ is_Some (lineKey ln).
Proof. destruct ln; simpl; split; try done; by intros [? ?]. Qed.

Lemma walkLines_keys N o E m :
  lookupOf N m → lineKey <$> walkLines o E m = lineKey <$> E.
Proof.
  revert m. induction E as [|ln E IH]; intros m Hm; simpl; [done |].
  rewrite (stepLine_key N) by done. f_equal.
  by apply IH, lookupOf_stepMap.
Qed.

Lemma walkLines_length o E m : length (walkLines o E m) = length E.
Proof. revert m. induction E as [|ln E IH]; intros m; simpl; auto. Qed.

Lemma keysOf_fmap L : keysOf L = omap id (lineKey <$> L).
Proof.
  unfold keysOf. induction L as [|ln L IH]; [done |].
  cbn. destruct (lineKey ln); cbn; by rewrite IH.
Qed.

Lemma keysOf_app L1 L2 : keysOf (L1 ++ L2) = keysOf L1 ++ keysOf L2.
Proof. apply omap_app. Qed.

Lemma hasKey_true k ln : hasKey k ln = true ↔ lineKey ln = Some k.
Proof. unfold hasKey. apply bool_decide_eq_true. Qed.

Lemma hasKey_false k ln : hasKey k ln = false ↔ lineKey ln ≠ Some k.
Proof. unfold hasKey. apply bool_decide_eq_false. Qed.

Lemma hasKey_not_keyvalue k ln : isKeyValue ln = false → hasKey k ln = false.
Proof. intros H. apply hasKey_false. by destruct ln. Qed.

Lemma elem_of_keysOf k L : k ∈ keysOf L ↔ List.filter (hasKey k) L ≠ [].
Proof.
  unfold keysOf. induction L as [|ln L IH]; cbn.
  - split; [by intros ?%elem_of_nil | done].
  - destruct (hasKey k ln) eqn:Hk.
    + apply hasKey_true in Hk. rewrite Hk.
      split; [done | intros _; apply list_elem_of_here].
    + apply hasKey_false in Hk. destruct (lineKey ln) as [k'|]; [| done].
      rewrite elem_of_cons, IH. split; [intros [->|?]; done | auto].
Qed.

(** The lookup built at lines 10-15 holds, for each key, the last line
    that assigns it. *)
Lemma get_collect_foldl k L m :
  get k (foldl (fun m ln =>
                  match ln with
                  | KeyValue k _ _ => set k ln m
                  | _ => m
                  end) m L) =
  match last (List.filter (hasKey k) L) with
  | Some ln => Some ln
  | None => get k m
  end.
Proof.
  revert m. induction L as [|ln L IH]; intros m; [done |].
  cbn [foldl List.filter]. rewrite IH.
  destruct (hasKey k ln) eqn:Hk.
  - apply hasKey_true in Hk. destruct ln as [t| |key v r]; try done.
    injection Hk as ->. rewrite last_cons, get_set_eq.
    by destruct (last _).
  - apply hasKey_false in Hk.
    destruct (last _); [done |].
    destruct ln as [t| |key v r]; try done.
    apply get_set_ne. intros ->. by apply Hk.
Qed.

Lemma get_collect k L :
  get k (collectKeyValues L) = last (List.filter (hasKey k) L).
Proof.
  unfold collectKeyValues. rewrite get_collect_foldl.
  by destruct (last _).
Qed.

Lemma valueOfKey_last k L :
  valueOfKey k L = last (List.filter (hasKey k) L) ≫= lineValue.
Proof. unfold valueOfKey. by rewrite get_collect. Qed.

Lemma lookupOf_tail N x m : lookupOf N (x :: m) → lookupOf N m.
Proof.
  intros [Hnd Hin]. split.
  - unfold keys in *. simpl in Hnd. by apply NoDup_cons in Hnd as [_ ?].
  - intros k ln H. by apply Hin, list_elem_of_further.
Qed.

(** What is left of the lookup holds at most one line for a key. *)
Lemma filter_values N k m :
  lookupOf N m →
  List.filter (hasKey k) (values m) =
  match get k m with Some nl => [nl] | None => [] end.
Proof.
  unfold values. induction m as [|[k0 ln0] m IH]; intros Hm; [done |].
  pose proof (lookupOf_tail _ _ _ Hm) as Hm'.
  destruct Hm as [Hnd Hin].
  destruct (Hin k0 ln0 (list_elem_of_here _ _)) as [Hk0 _].
  cbn. destruct (decide (k0 = k)) as [->|Hne].
  - assert (hasKey k ln0 = true) as -> by by apply hasKey_true.
    rewrite IH by done.
    unfold keys in Hnd. simpl in Hnd. apply NoDup_cons in Hnd as [Hk _].
    apply get_None_keys in Hk. by rewrite Hk.
  - assert (hasKey k ln0 = false) as ->
      by (apply hasKey_false; rewrite Hk0; congruence).
    by apply IH.
Qed.

(** The lines of the walk that assign [k], and the entry for [k] that the
    walk leaves in the lookup. *)
Lemma walk_filter N o k E m :
  lookupOf N m →
  List.filter (hasKey k) (walkLines o E m) =
    (if o then
       match List.filter (hasKey k) E, get k m with
       | _ :: r, Some nl => nl :: r
       | fE, _ => fE
       end
     else List.filter (hasKey k) E)
  ∧ get k (walkMap o E m) =
    match List.filter (hasKey k) E with [] => get k m | _ => None end.
Proof.
  revert m. induction E as [|ln E IH]; intros m Hm.
  - cbn. by destruct o, (get k m).
  - pose proof (stepLine_key N o m ln Hm) as Hkey.
    pose proof (lookupOf_stepMap N o m ln Hm) as Hm'.
    destruct (IH _ Hm') as [IH1 IH2]. clear IH.
    cbn [walkLines walkMap List.filter]. rewrite IH2.
    rewrite stepMap_delete in *.
    destruct (hasKey k ln) eqn:Hk.
    + apply hasKey_true in Hk.
      assert (hasKey k (stepLine o m ln) = true) as ->
        by (apply hasKey_true; congruence).
      rewrite IH1, Hk. rewrite Hk in IH2.
      rewrite get_delete_eq by apply Hm.
      split; [| by destruct (List.filter _ E)].
      destruct ln as [t| |key v r]; try done. injection Hk as ->.
      destruct o; cbn.
      * destruct (get k m); by destruct (List.filter _ E).
      * done.
    + apply hasKey_false in Hk.
      assert (hasKey k (stepLine o m ln) = false) as ->
        by (apply hasKey_false; congruence).
      rewrite IH1.
      assert (get k (match lineKey ln with
                     | Some key => delete key m
                     | None => m
                     end) = get k m) as ->.
      { destruct (lineKey ln) as [key|]; [| done].
        apply get_delete_ne. intros ->. by apply Hk. }
      done.
Qed.

(** The lines of the merged file that assign [k]. *)
Lemma merge_filter E N o k :
  List.filter (hasKey k) (mergeEnvLocal E N o) =
  match List.filter (hasKey k) E with
  | [] => match get k (collectKeyValues N) with
          | Some nl => [nl]
          | None => []
          end
  | e :: r => match o, get k (collectKeyValues N) with
              | true, Some nl => nl :: r
              | _, _ => e :: r
              end
  end.
Proof.
  rewrite mergeEnvLocal_walk, List.filter_app.
  pose proof (lookupOf_collect N) as Hm.
  destruct (walk_filter N o k E _ Hm) as [H1 H2].
  rewrite H1, (filter_values N) by by apply lookupOf_walkMap.
  rewrite H2.
  destruct (List.filter (hasKey k) E) as [|e r].
  - by destruct o, (get k (collectKeyValues N)).
  - destruct o, (get k (collectKeyValues N)); by rewrite app_nil_r.
Qed.

End MergeFacts.

Lemma keysOf_get_collect k N :
  k ∈ keysOf N ↔ is_Some (JsMap.get k (collectKeyValues N)).
Proof.
  rewrite elem_of_keysOf, get_collect.
  destruct (List.filter (hasKey k) N) as [|x l] eqn:Hf using rev_ind.
  - split; [done | by intros [? ?]].
  - rewrite last_snoc. split; [by eexists | by destruct l].
Qed.

Lemma merge_empty_existing N o :
  mergeEnvLocal [] N o = JsMap.values (collectKeyValues N).
Proof. by rewrite mergeEnvLocal_walk. Qed.

Lemma set_fresh {V} k (v : V) (m : JsMap.t V) :
  JsMap.get k m = None → JsMap.set k v m = m ++ [(k, v)].
Proof.
  induction m as [|[k0 v0] m IH]; simpl; [done |].
  destruct (decide (k0 = k)); [done |]. intros H. by rewrite IH.
Qed.

Lemma collect_distinct N m :
  Forall (fun ln => isKeyValue ln = true) N → NoDup (keysOf N) →
  (∀ k, k ∈ keysOf N → JsMap.get k m = None) →
  JsMap.values
    (foldl (fun m ln =>
              match ln with
              | KeyValue k _ _ => JsMap.set k ln m
              | _ => m
              end) m N)
  = JsMap.values m ++ N.
Proof.
  revert m. induction N as [|ln N IH]; intros m Hkv Hnd Hfresh.
  - simpl. by rewrite app_nil_r.
  - apply Forall_cons in Hkv as [Hln Hkv].
    destruct ln as [t| |k v r]; try done.
    cbn in Hnd. apply NoDup_cons in Hnd as [Hk Hnd].
    cbn [foldl]. rewrite IH; [| done | done |].
    + rewrite set_fresh by (apply Hfresh; cbn; apply list_elem_of_here).
      unfold JsMap.values. rewrite map_app. simpl. by rewrite <- app_assoc.
    + intros k' Hk'. rewrite JsMapFacts.get_set_ne.
      * apply Hfresh. cbn. by apply list_elem_of_further.
      * intros ->. done.
Qed.

(** With no existing lines, new lines that are all assignments of distinct
    keys do come back as they are. *)
Lemma merge_empty_existing_distinct N o :
  Forall (fun ln => isKeyValue ln = true) N → NoDup (keysOf N) →
  mergeEnvLocal [] N o = N.
Proof.
  intros Hkv Hnd. rewrite merge_empty_existing.
  unfold collectKeyValues. by rewrite collect_distinct.
Qed.

(** Every line that mergeEnvLocal appends after the walk is a key/value
    line of the new lines whose key the existing file does not assign. *)
Lemma merge_appended E N o ln :
  ln ∈ drop (length E) (mergeEnvLocal E N o) →
  ln ∈ N ∧ ∃ k, lineKey ln = Some k ∧ k ∉ keysOf E.
Proof.
  rewrite mergeEnvLocal_walk.
  rewrite <- (walkLines_length o E (collectKeyValues N)), drop_app_length.
  unfold JsMap.values. intros [[k ln'] [-> Hin]]%list_elem_of_fmap. simpl.
  pose proof (lookupOf_walkMap N o E _ (lookupOf_collect N)) as Hm.
  destruct Hm as [Hnd Hm]. destruct (Hm _ _ Hin) as [Hk HN].
  split; [done |]. exists k. split; [done |].
  intros HE%elem_of_keysOf.
  destruct (walk_filter N o k E _ (lookupOf_collect N)) as [_ Hg].
  destruct (List.filter (hasKey k) E); [done |].
  apply JsMapFacts.get_None_keys in Hg. apply Hg.
  unfold JsMap.keys. apply list_elem_of_fmap. by exists (k, ln').
Qed.

Lemma merge_lookup_walk E N o i :
  i < length E →
  mergeEnvLocal E N o !! i = walkLines o E (collectKeyValues N) !! i.
Proof.
  intros Hi. rewrite mergeEnvLocal_walk.
  apply lookup_app_l. by rewrite walkLines_length.
Qed.

Lemma walkLines_lookup_keys N o E m i :
  lookupOf N m →
  lineKey <$> (walkLines o E m !! i) = lineKey <$> (E !! i).
Proof.
  intros Hm. rewrite <- !list_lookup_fmap. by rewrite (walkLines_keys N).
Qed.

Lemma walkLines_lookup_not_keyvalue o E m i ln :
  E !! i = Some ln → isKeyValue ln = false → walkLines o E m !! i = Some ln.
Proof.
  revert m i. induction E as [|e E IH]; intros m i; [done |].
  destruct i as [|i]; simpl.
  - intros [= ->] H. by rewrite stepLine_not_keyvalue.
  - apply IH.
Qed.

Lemma walkLines_lookup_not_keyvalue_inv N o E m i ln :
  lookupOf N m →
  walkLines o E m !! i = Some ln → isKeyValue ln = false → E !! i = Some ln.
Proof.
  intros Hm Hw Hln.
  pose proof (walkLines_lookup_keys N o E m i Hm) as Hk. rewrite Hw in Hk.
  destruct (E !! i) as [e|] eqn:He; [| done].
  simpl in Hk. injection Hk as Hk.
  assert (isKeyValue e = false) as Hne.
  { destruct e, ln; simpl in *; congruence. }
  rewrite (walkLines_lookup_not_keyvalue o E m i e He Hne) in Hw.
  congruence.
Qed.

(** ** Parsing and rendering *)

Lemma spanChars_app p s a b : spanChars p s = (a, b) → s = (a ++ b)%string.
Proof.
  revert a b. induction s as [|c s IH]; intros a b; simpl.
  - by intros [= <- <-].
  - destruct (p c); [| by intros [= <- <-]].
    destruct (spanChars p s) as [a' b'] eqn:Hs.
    intros [= <- <-]. rewrite (IH a' b' eq_refl) at 1. reflexivity.
Qed.

(** A matched line is its key, white space, [=], white space and its
    value, in this order and with nothing else. *)
Lemma matchEnvLine_decompose line m :
  matchEnvLine line = Some m →
  line = (m_key m ++ m_ws1 m ++ "=" ++ m_ws2 m ++ m_value m)%string.
Proof.
  unfold matchEnvLine.
  destruct (spanChars isKeyChar line) as [key r1] eqn:H1.
  destruct key as [|c key]; [done |].
  destruct (spanChars isSpace r1) as [ws1 r2] eqn:H2.
  destruct r2 as [|c2 r3]; [done |].
  destruct (decide (c2 = "="%char)) as [->|Hne].
  - destruct (spanChars isSpace r3) as [ws2 value] eqn:H3.
    destruct (allChars _ value); [| done].
    intros [= <-]. cbn [m_key m_ws1 m_ws2 m_value].
    apply spanChars_app in H1, H2, H3. subst. reflexivity.
  - destruct c2 as [[] [] [] [] [] [] [] []]; done.
Qed.

Lemma isEmpty_true s : isEmpty s = true → s = EmptyString.
Proof. by destruct s. Qed.

Lemma render_parse_lossless line :
  lossless line = true → renderLine (parseEnvLine line) = line.
Proof.
  unfold lossless, parseEnvLine.
  destruct (isEmpty (trim line)).
  { by intros ->%isEmpty_true. }
  destruct (startsWith "#" (trimStart line)); [done |].
  destruct (matchEnvLine line) as [m|] eqn:Hm; [| done].
  intros [H1%isEmpty_true H2%isEmpty_true]%andb_prop.
  apply matchEnvLine_decompose in Hm.
  rewrite H1, H2 in Hm.
  etrans; [| symmetry; exact Hm]. reflexivity.
Qed.

Lemma splitLines_cons content : ∃ seg segs, splitLines content = seg :: segs.
Proof.
  induction content as [|c rest IH]; simpl; [by eexists _, _ |].
  destruct (decide _); [by eexists _, _ |].
  destruct (_ && _); [done |].
  destruct IH as (seg & segs & ->). by eexists _, _.
Qed.

Lemma join_cons_char sep c seg segs :
  join sep (String c seg :: segs) = String c (join sep (seg :: segs)).
Proof. by destruct segs. Qed.

(** Splitting a text in lines and joining them with LF strips the CR of
    every CR-LF pair, and changes nothing else. *)
Lemma join_splitLines content :
  join LF (splitLines content) = normalizeNewlines content.
Proof.
  induction content as [|c rest IH]; [done |].
  cbn [splitLines normalizeNewlines].
  destruct (decide (c = "010"%char)) as [->|Hlf].
  - destruct (splitLines_cons rest) as (seg & segs & Hs).
    rewrite Hs in *. cbn. by rewrite <- IH.
  - destruct (bool_decide (c = "013"%char) && startsWith LF rest); [done |].
    destruct (splitLines_cons rest) as (seg & segs & Hs).
    rewrite Hs in *. by rewrite join_cons_char, IH.
Qed.

(** ** Resolution of placeholders *)

(** A line is left as it is when reading the name of its placeholder in
    the table gives [undefined]. *)
Lemma resolveLine_undefined placeholderMap key value raw inner :
  matchPlaceholder (trim value) = Some inner →
  obj_get placeholderMap (normalizePlaceholderName inner) = JsUndefined →
  resolveLine placeholderMap (KeyValue key value raw) = KeyValue key value raw.
Proof. intros H1 H2. simpl. by rewrite H1, H2. Qed.

Lemma resolve_bar_empty_table :
  generateEnvLocalLines [KeyValue "FOO" "<bar>" "FOO=<bar>"] ∅
  = [KeyValue "FOO" "<bar>" "FOO=<bar>"].
Proof. reflexivity. Qed.

(** ** The status source *)

Lemma obj_set_lookup_is_Some name s obj k :
  is_Some (obj_set name s obj !! k) → k = name ∨ is_Some (obj !! k).
Proof.
  unfold obj_set. destruct (bool_decide _); [by right |].
  destruct (decide (name = k)) as [->|Hne]; [by left |].
  rewrite lookup_insert_ne by done. by right.
Qed.

(** fetchFromSupabaseJSON returns entries for the names it was given and
    for no other. *)
Lemma fetch_only_given_names names status k :
  is_Some (fetchFromSupabaseJSON names status !! k) → k ∈ names.
Proof.
  unfold fetchFromSupabaseJSON.
  assert (∀ jsonData l acc,
            is_Some (foldl (fetchStep jsonData) acc l !! k) →
            k ∈ l ∨ is_Some (acc !! k)) as Hfold.
  { intros jsonData l. induction l as [|x l IH]; intros acc; simpl.
    - by right.
    - intros [H|H]%IH; [left; by apply list_elem_of_further |].
      unfold fetchStep in H.
      destruct (JsMap.get _ jsonData) as [[| | |[|c s]| |]|]; auto.
      apply obj_set_lookup_is_Some in H as [->|H]; auto.
      left. apply list_elem_of_here. }
  destruct names as [|n names]; [by rewrite lookup_empty; intros [? ?] |].
  destruct status as [| | |jsonData];
    try (rewrite lookup_empty; by intros [? ?]).
  intros [H|H]%Hfold; [done |].
  rewrite lookup_empty in H. by destruct H.
Qed.


(** ** parseKeyValuePairs *)

Lemma parsePair_segments p :
  parsePair p =
  if malformedPair p then inl (invalidPair p)
  else inr (trim (firstSegment p), trim (secondSegment p)).
Proof.
  unfold parsePair, malformedPair, firstSegment, secondSegment.
  destruct (splitOn "=" p) as [|[|a k] [|[|b v] rest]]; done.
Qed.

Lemma parsePairs_foldl pairs result :
  foldl (fun acc p =>
           match acc with
           | inl e => inl e
           | inr result =>
               match parsePair p with
               | inl e => inl e
               | inr (k, v) => inr (obj_set k v result)
               end
           end) (inr result) pairs
  = match List.find malformedPair pairs with
    | Some p => inl (invalidPair p)
    | None => inr (foldl storePair result pairs)
    end.
Proof.
  revert result. induction pairs as [|p pairs IH]; intros result; [done |].
  cbn [foldl List.find]. rewrite parsePair_segments.
  destruct (malformedPair p); [| apply IH].
  clear IH. induction pairs as [|q pairs IH]; [done | apply IH].
Qed.

(* ================================================================== *)
(** * The claims of the specification *)
(* ================================================================== *)

(** C1. The specification says that merging into an empty existing side
    returns the new lines as they are, comments, blank lines and duplicate
    keys included.  The code does not: on the lines of a template with a
    comment, a blank line and a key assigned twice, mergeEnvLocal with no
    existing lines returns the single last assignment, whatever [override]
    is.  This is the call that generateEnvAction makes when it creates a
    new file. *)
Theorem merge_empty_existing_loses_lines :
  ∀ override,
    mergeEnvLocal []
      [Comment "# note"; KeyValue "PORT" "3000" "PORT=3000"; Blank;
       KeyValue "PORT" "1" "PORT=1"] override
    = [KeyValue "PORT" "1" "PORT=1"].
Proof. by intros []. Qed.

(** C2. Every key assigned in the existing lines is assigned in the merged
    lines, for either value of [override]. *)
Theorem merge_keeps_existing_keys (E N : list EnvLine) (override : bool)
    (k : string) :
  k ∈ keysOf E → k ∈ keysOf (mergeEnvLocal E N override).
Proof.
  intros Hk. rewrite mergeEnvLocal_walk, keysOf_app, elem_of_app. left.
  rewrite keysOf_fmap, (walkLines_keys N) by apply lookupOf_collect.
  by rewrite <- keysOf_fmap.
Qed.

Lemma merge_keeps_existing_keys_witness :
  "DEBUG" ∈ keysOf (mergeEnvLocal
                      [Comment "# local"; KeyValue "DEBUG" "1" "DEBUG=1"]
                      [KeyValue "PORT" "3000" "PORT=3000"] true).
Proof.
  apply merge_keeps_existing_keys. vm_compute. apply list_elem_of_here.
Defined.

(** C3, as the specification states it, fails when the existing file
    assigns the shared key twice: with override, only the first of the two
    lines is replaced, and the value read from the merged file is the
    second, existing one. *)
Lemma merge_override_duplicate_counterexample :
  let E := [KeyValue "A" "1" "A=1"; KeyValue "A" "2" "A=2"] in
  let N := [KeyValue "A" "3" "A=3"] in
  "A" ∈ keysOf E ∧ "A" ∈ keysOf N ∧
  mergeEnvLocal E N true = [KeyValue "A" "3" "A=3"; KeyValue "A" "2" "A=2"] ∧
  valueOfKey "A" N = Some "3" ∧
  valueOfKey "A" (mergeEnvLocal E N true) = Some "2".
Proof. vm_compute. split_and!; try done; apply list_elem_of_here. Qed.

(** C3, amended.  For a key [k] assigned in the existing lines: without
    override the merged file keeps the existing value; with override it
    takes the new value when [k] is also assigned in the new lines and is
    assigned once in the existing lines; and when the new lines do not
    assign [k], the existing value is kept under either override value. *)
Theorem merge_values (E N : list EnvLine) (k : string) :
  k ∈ keysOf E →
  valueOfKey k (mergeEnvLocal E N false) = valueOfKey k E ∧
  (k ∈ keysOf N → occurrences k E = 1 →
   valueOfKey k (mergeEnvLocal E N true) = valueOfKey k N) ∧
  (k ∉ keysOf N →
   ∀ override, valueOfKey k (mergeEnvLocal E N override) = valueOfKey k E).
Proof.
  intros HE%elem_of_keysOf. split_and!.
  - rewrite !valueOfKey_last, merge_filter.
    by destruct (List.filter (hasKey k) E).
  - intros [nl Hnl]%keysOf_get_collect Hocc.
    rewrite valueOfKey_last, merge_filter. unfold valueOfKey. rewrite Hnl.
    unfold occurrences in Hocc.
    destruct (List.filter (hasKey k) E) as [|e [|e' r]]; done.
  - intros HN override.
    assert (JsMap.get k (collectKeyValues N) = None) as Hg.
    { apply eq_None_not_Some. by rewrite <- keysOf_get_collect. }
    rewrite !valueOfKey_last, merge_filter, Hg.
    by destruct (List.filter (hasKey k) E), override.
Qed.

Lemma merge_values_witness :
  let E := [Comment "# local"; KeyValue "PORT" "9999" "PORT=9999";
            KeyValue "HOST" "h" "HOST=h"] in
  let N := [KeyValue "PORT" "3000" "PORT=3000"] in
  valueOfKey "PORT" (mergeEnvLocal E N false) = valueOfKey "PORT" E ∧
  valueOfKey "PORT" (mergeEnvLocal E N true) = valueOfKey "PORT" N ∧
  ∀ override, valueOfKey "HOST" (mergeEnvLocal E N override)
              = valueOfKey "HOST" E.
Proof.
  intros E N.
  assert ("PORT" ∈ keysOf E) as HP by (vm_compute; apply list_elem_of_here).
  assert ("HOST" ∈ keysOf E) as HH
    by (vm_compute; apply list_elem_of_further, list_elem_of_here).
  destruct (merge_values E N "PORT" HP) as (Ha & Hb & _).
  destruct (merge_values E N "HOST" HH) as (_ & _ & Hc).
  split_and!.
  - exact Ha.
  - apply Hb; [vm_compute; apply list_elem_of_here | reflexivity].
  - apply Hc. vm_compute. by intros ?%list_elem_of_singleton.
Defined.

(** C9, as the specification states it, fails: a comment that occurs only
    in the new lines is not appended to the merged lines, it is left out. *)
Lemma merge_new_comment_counterexample :
  let E := [KeyValue "A" "1" "A=1"] in
  let c := Comment "# extra" in
  let N := [c; KeyValue "B" "2" "B=2"] in
  c ∈ N ∧ (c ∉ E) ∧
  mergeEnvLocal E N false = [KeyValue "A" "1" "A=1"; KeyValue "B" "2" "B=2"] ∧
  c ∉ mergeEnvLocal E N false.
Proof.
  vm_compute. split_and!; [apply list_elem_of_here | | done |];
    intros H; repeat (apply elem_of_cons in H as [H|H]; [done |]);
    by apply elem_of_nil in H.
Qed.

(** C9, amended.  Every Comment and Blank line of the existing lines is in
    the merged lines at its original index, and every Comment or Blank line
    of the merged lines is that line of the existing lines; the lines
    appended after the existing ones are key/value lines of the new lines
    whose key the existing lines do not assign, so comments and blank lines
    of the new lines are not copied. *)
Theorem merge_keeps_existing_comments (E N : list EnvLine) (override : bool) :
  (∀ i ln, E !! i = Some ln → isKeyValue ln = false →
           mergeEnvLocal E N override !! i = Some ln) ∧
  (∀ i ln, mergeEnvLocal E N override !! i = Some ln →
           isKeyValue ln = false → E !! i = Some ln) ∧
  (∀ ln, ln ∈ drop (length E) (mergeEnvLocal E N override) →
         isKeyValue ln = true ∧ ln ∈ N ∧
         ∃ k, lineKey ln = Some k ∧ k ∉ keysOf E).
Proof.
  assert (∀ ln, ln ∈ drop (length E) (mergeEnvLocal E N override) →
            isKeyValue ln = true ∧ ln ∈ N ∧
            ∃ k, lineKey ln = Some k ∧ k ∉ keysOf E) as Happ.
  { intros ln Hln. destruct (merge_appended E N override ln Hln)
      as (HN & k & Hk & HkE).
    split_and!; [| done | by exists k].
    apply isKeyValue_lineKey. by exists k. }
  split_and!; [| | exact Happ].
  - intros i ln Hi Hln.
    rewrite merge_lookup_walk by by eapply lookup_lt_Some.
    by apply walkLines_lookup_not_keyvalue.
  - intros i ln Hi Hln. destruct (decide (i < length E)) as [Hlt|Hge].
    + rewrite merge_lookup_walk in Hi by done.
      eapply walkLines_lookup_not_keyvalue_inv;
        [apply lookupOf_collect | done..].
    + assert (ln ∈ drop (length E) (mergeEnvLocal E N override)) as Hd.
      { apply list_elem_of_lookup. exists (i - length E).
        rewrite lookup_drop. rewrite <- Hi. f_equal. lia. }
      destruct (Happ ln Hd) as [Hkv _]. congruence.
Qed.

Lemma merge_keeps_existing_comments_witness :
  let E := [Comment "# db"; KeyValue "A" "1" "A=1"; Blank] in
  let N := [Comment "# extra"; KeyValue "A" "5" "A=5"; KeyValue "B" "2" "B=2"] in
  mergeEnvLocal E N true !! 0 = Some (Comment "# db") ∧
  mergeEnvLocal E N true !! 2 = Some Blank ∧
  E !! 0 = Some (Comment "# db") ∧
  isKeyValue (KeyValue "B" "2" "B=2") = true.
Proof.
  intros E N.
  destruct (merge_keeps_existing_comments E N true) as (H1 & H2 & H3).
  split_and!.
  - apply H1; reflexivity.
  - apply H1; reflexivity.
  - apply H2; reflexivity.
  - apply (H3 (KeyValue "B" "2" "B=2")). vm_compute. apply list_elem_of_here.
Defined.






(** C5.  The specification says that, with the override option, a
    destination that holds PORT=9999 becomes PORT=3000.  The code never
    does that: whatever the options, processing the template PORT=3000
    over the destination PORT=9999 either leaves the file unwritten or
    writes PORT=9999 again, because [canOverride] is false whenever the
    merge option is on. *)
Theorem override_never_reaches_merge :
  ∀ options,
    processExample options
      (generateEnvLocalLines (parseEnvFile "PORT=3000") ∅) []
      (Some "PORT=9999")
    = if o_merge options && negb (o_dryRun options)
      then Some "PORT=9999" else None.
Proof. intros [[] [] []]; by vm_compute. Qed.

(** C6.  A name that the user table holds resolves, in the combined table,
    to the value of the user table, whatever the status table holds for
    it; a name that neither table holds is not in the combined table. *)
Theorem user_values_outrank_status
    (supabaseMap userPlaceholders : gmap string string) (x : string) :
  (∀ a, userPlaceholders !! x = Some a →
        finalPlaceholders supabaseMap userPlaceholders !! x = Some a ∧
        obj_get (finalPlaceholders supabaseMap userPlaceholders) x
        = JsString a) ∧
  (userPlaceholders !! x = None → supabaseMap !! x = None →
   finalPlaceholders supabaseMap userPlaceholders !! x = None).
Proof.
  unfold finalPlaceholders, obj_get. split.
  - intros a Ha.
    assert ((userPlaceholders ∪ supabaseMap) !! x = Some a) as ->
      by by apply lookup_union_Some_l.
    done.
  - intros Hu Hs. by apply lookup_union_None.
Qed.

Lemma user_values_outrank_status_witness :
  let user : gmap string string := {[ "x" := "A" ]} in
  let status : gmap string string := {[ "x" := "B" ]} in
  finalPlaceholders status user !! "x" = Some "A" ∧
  obj_get (finalPlaceholders status user) "x" = JsString "A" ∧
  finalPlaceholders status user !! "y" = None.
Proof.
  intros user status.
  destruct (user_values_outrank_status status user "x") as [Hx _].
  destruct (user_values_outrank_status status user "y") as [_ Hy].
  destruct (Hx "A") as [H1 H2]; [reflexivity |].
  split_and!; [exact H1 | exact H2 | apply Hy; reflexivity].
Defined.

(** C7.  The specification says that a placeholder whose name is no key of
    the table is left in its bracketed form.  The code reads the table
    with [placeholderMap[placeholderName]], which also finds what every
    object inherits: for the name [constructor] and the empty table the
    line is replaced by the text of the built-in [Object] function. *)
Theorem unresolved_constructor_is_replaced :
  (∅ : gmap string string) !! normalizePlaceholderName "constructor" = None ∧
  parseEnvFile "FOO=<constructor>"
  = [KeyValue "FOO" "<constructor>" "FOO=<constructor>"] ∧
  generateEnvLocalLines (parseEnvFile "FOO=<constructor>") ∅
  = [KeyValue "FOO" "function Object() { [native code] }"
              "FOO=function Object() { [native code] }"].
Proof. by vm_compute. Qed.

(** C8.  The specification says that the status fields ANON_KEY, API_URL
    and the like fill the built-in names supabase-anon-key,
    supabase-api-url and the like.  fetchFromSupabaseJSON looks each
    missing name up under its own upper-case form instead, and returns no
    entry for them; the legacy maybeGetSupabasePlaceholders does fill them. *)
Theorem fetch_misses_builtin_names :
  let missing := ["supabase-anon-key"; "supabase-api-url"] in
  let status := StatusObject [("ANON_KEY", JString "k");
                              ("API_URL", JString "http://u")] in
  fetchFromSupabaseJSON missing status = ∅ ∧
  maybeGetSupabasePlaceholders missing status
  = {[ "supabase-anon-key" := "k"; "supabase-api-url" := "http://u" ]}.
Proof. by vm_compute. Qed.

(** C10.  parseKeyValuePairs reads, of each pair, the segment before the
    first [=] and the segment between the first and the second [=]: it
    throws for the first pair in which one of the two is empty, and
    otherwise assigns the second, trimmed, under the first, trimmed; what
    follows a second [=] is not read. *)
Theorem parseKeyValuePairs_first_two_segments :
  (∀ p, parsePair p =
        if malformedPair p then inl (invalidPair p)
        else inr (trim (firstSegment p), trim (secondSegment p))) ∧
  (∀ input, isEmpty (trim input) = false →
     parseKeyValuePairs input =
     match List.find malformedPair (splitOn "," input) with
     | Some p => inl (invalidPair p)
     | None => inr (foldl storePair ∅ (splitOn "," input))
     end) ∧
  parseKeyValuePairs "k=" = inl (invalidPair "k=") ∧
  parseKeyValuePairs "=v" = inl (invalidPair "=v") ∧
  parseKeyValuePairs "k=a=b" = inr {[ "k" := "a" ]}.
Proof.
  split_and!; try by vm_compute.
  - apply parsePair_segments.
  - intros input Hne. unfold parseKeyValuePairs. rewrite Hne.
    apply parsePairs_foldl.
Qed.

Lemma parseKeyValuePairs_first_two_segments_witness :
  parseKeyValuePairs "a=1, b = 2=3" = inr {[ "a" := "1"; "b" := "2" ]} ∧
  parseKeyValuePairs "a=1,b=" = inl (invalidPair "b=").
Proof.
  destruct parseKeyValuePairs_first_two_segments as (_ & H & _).
  split.
  - rewrite H by reflexivity. by vm_compute.
  - rewrite H by reflexivity. by vm_compute.
Defined.

(* ================================================================== *)
(** * Further properties of the code *)
(* ================================================================== *)

(** ** The string primitives *)

Ltac ascii_cases c := destruct c as [[] [] [] [] [] [] [] []].

Lemma mapChars_compose f g s :
  mapChars f (mapChars g s) = mapChars (fun c => f (g c)) s.
Proof. induction s as [|c s IH]; simpl; [done | by rewrite IH]. Qed.

Lemma mapChars_ext f g s :
  (∀ c, f c = g c) → mapChars f s = mapChars g s.
Proof. intros H. induction s as [|c s IH]; simpl; [done | by rewrite H, IH]. Qed.

Lemma allChars_mapChars p f s :
  allChars p (mapChars f s) = allChars (fun c => p (f c)) s.
Proof. induction s as [|c s IH]; simpl; [done | by rewrite IH]. Qed.

Lemma allChars_impl (p q : ascii → bool) s :
  (∀ c, p c = true → q c = true) → allChars p s = true → allChars q s = true.
Proof.
  intros H. induction s as [|c s IH]; simpl; [done |].
  intros [Hc Hs]%andb_prop. by rewrite (H c Hc), IH.
Qed.

Lemma allChars_all p s : (∀ c, p c = true) → allChars p s = true.
Proof. intros H. induction s as [|c s IH]; simpl; [done | by rewrite H, IH]. Qed.

Lemma trimStart_noLeadingSpace s : noLeadingSpace (trimStart s).
Proof.
  induction s as [|c s IH]; simpl; [done |].
  destruct (isSpace c) eqn:Hc; [done | exact Hc].
Qed.

Lemma trimStart_id s : noLeadingSpace s → trimStart s = s.
Proof. destruct s as [|c s]; simpl; [done | by intros ->]. Qed.

Lemma trimEnd_noLeadingSpace s : noLeadingSpace s → noLeadingSpace (trimEnd s).
Proof.
  destruct s as [|c s]; simpl; [done |]. intros Hc.
  destruct (trimEnd s); simpl; by rewrite ?Hc.
Qed.

Lemma trimEnd_idem s : trimEnd (trimEnd s) = trimEnd s.
Proof.
  induction s as [|c s IH]; simpl; [done |].
  destruct (trimEnd s) as [|d t] eqn:Ht.
  - destruct (isSpace c) eqn:Hc; simpl; [done | by rewrite Hc].
  - cbn [trimEnd] in *. by rewrite IH.
Qed.

Lemma trim_idem s : trim (trim s) = trim s.
Proof.
  unfold trim.
  rewrite (trimStart_id (trimEnd (trimStart s)))
    by apply trimEnd_noLeadingSpace, trimStart_noLeadingSpace.
  apply trimEnd_idem.
Qed.

Lemma trimStart_mapChars f s :
  (∀ c, isSpace (f c) = isSpace c) →
  trimStart (mapChars f s) = mapChars f (trimStart s).
Proof.
  intros H. induction s as [|c s IH]; simpl; [done |].
  rewrite H. by destruct (isSpace c).
Qed.

Lemma trimEnd_mapChars f s :
  (∀ c, isSpace (f c) = isSpace c) →
  trimEnd (mapChars f s) = mapChars f (trimEnd s).
Proof.
  intros H. induction s as [|c s IH]; simpl; [done |].
  rewrite IH, H. destruct (trimEnd s); simpl; [by destruct (isSpace c) | done].
Qed.

Lemma trim_mapChars f s :
  (∀ c, isSpace (f c) = isSpace c) → trim (mapChars f s) = mapChars f (trim s).
Proof.
  intros H. unfold trim. by rewrite trimStart_mapChars, trimEnd_mapChars.
Qed.

Lemma allChars_trimStart p s : allChars p s = true → allChars p (trimStart s) = true.
Proof.
  induction s as [|c s IH]; simpl; [done |].
  intros [Hc Hs]%andb_prop. destruct (isSpace c); [by apply IH |].
  simpl. by rewrite Hc, Hs.
Qed.

Lemma allChars_trimEnd p s : allChars p s = true → allChars p (trimEnd s) = true.
Proof.
  induction s as [|c s IH]; simpl; [done |].
  intros [Hc Hs]%andb_prop. specialize (IH Hs).
  destruct (trimEnd s); [destruct (isSpace c) |]; simpl in *; by rewrite ?Hc, ?IH.
Qed.

Lemma allChars_trim p s : allChars p s = true → allChars p (trim s) = true.
Proof. intros H. by apply allChars_trimEnd, allChars_trimStart. Qed.

(** [trim] leaves nothing exactly when the string is white space only. *)
Lemma isEmpty_trimEnd s : isEmpty (trimEnd s) = allChars isSpace s.
Proof.
  induction s as [|c s IH]; simpl; [done |].
  rewrite <- IH. destruct (trimEnd s); simpl; [| by rewrite andb_false_r].
  destruct (isSpace c); done.
Qed.

Lemma isEmpty_trim s : isEmpty (trim s) = allChars isSpace s.
Proof.
  unfold trim. rewrite isEmpty_trimEnd.
  induction s as [|c s IH]; simpl; [done |].
  destruct (isSpace c) eqn:Hc; simpl; [done | by rewrite Hc].
Qed.

(** ** normalizePlaceholderName and validatePlaceholderKey *)

Lemma lowerChar_space c : isSpace (lowerChar c) = isSpace c.
Proof. ascii_cases c; reflexivity. Qed.

Lemma dashChar_space c :
  isSpace (if bool_decide (c = "_"%char) then "-"%char else c) = isSpace c.
Proof. ascii_cases c; reflexivity. Qed.

Lemma normalizeChar_idem c :
  let f := fun c => if bool_decide (c = "_"%char) then "-"%char
                    else lowerChar c in
  f (f c) = f c.
Proof. ascii_cases c; reflexivity. Qed.

Lemma normalize_mapChars raw :
  normalizePlaceholderName raw =
  mapChars (fun c => if bool_decide (lowerChar c = "_"%char) then "-"%char
                     else lowerChar c) (trim raw).
Proof. unfold normalizePlaceholderName, toLowerCase. apply mapChars_compose. Qed.

Lemma normalizeChar_space c :
  isSpace (if bool_decide (lowerChar c = "_"%char) then "-"%char
           else lowerChar c) = isSpace c.
Proof. ascii_cases c; reflexivity. Qed.

(** X1.  normalizePlaceholderName is idempotent: normalizing a normalized
    name changes nothing. *)
Theorem normalizePlaceholderName_idempotent (raw : string) :
  normalizePlaceholderName (normalizePlaceholderName raw)
  = normalizePlaceholderName raw.
Proof.
  rewrite !normalize_mapChars.
  rewrite trim_mapChars by apply normalizeChar_space.
  rewrite trim_idem, mapChars_compose.
  apply mapChars_ext. intros c. ascii_cases c; reflexivity.
Qed.

(** X2.  A normalized name has no white space at either end, no underscore
    and no capital letter: it is left as it is by [trim] and by
    [toLowerCase], and none of its characters is an underscore. *)
Theorem normalizePlaceholderName_shape (raw : string) :
  trim (normalizePlaceholderName raw) = normalizePlaceholderName raw ∧
  toLowerCase (normalizePlaceholderName raw) = normalizePlaceholderName raw ∧
  allChars (fun c => negb (bool_decide (c = "_"%char)))
           (normalizePlaceholderName raw) = true.
Proof.
  rewrite !normalize_mapChars. split_and!.
  - rewrite trim_mapChars by apply normalizeChar_space. by rewrite trim_idem.
  - unfold toLowerCase. rewrite mapChars_compose.
    apply mapChars_ext. intros c. ascii_cases c; reflexivity.
  - rewrite allChars_mapChars. apply allChars_all.
    intros c. ascii_cases c; reflexivity.
Qed.

Lemma isNormalizedChar_placeholder c :
  isNormalizedChar c = true → isPlaceholderChar c = true.
Proof. ascii_cases c; vm_compute; done. Qed.

Lemma isPlaceholderChar_normalized c :
  isPlaceholderChar
    (if bool_decide (lowerChar c = "_"%char) then "-"%char else lowerChar c)
  = true →
  isNormalizedChar
    (if bool_decide (lowerChar c = "_"%char) then "-"%char else lowerChar c)
  = true.
Proof. ascii_cases c; vm_compute; done. Qed.

Lemma isEmpty_false s : isEmpty s = false ↔ s ≠ EmptyString.
Proof. by destruct s. Qed.

(** X3.  validatePlaceholderKey accepts a key exactly when its normalized
    form is a non-empty string of small ASCII letters, digits and dashes,
    and then returns that normalized form; although the expression it
    tests admits capitals and underscores, no accepted name holds one. *)
Theorem validatePlaceholderKey_accepts (rawKey n : string) :
  validatePlaceholderKey rawKey = inr n ↔
  n = normalizePlaceholderName rawKey ∧ n ≠ EmptyString ∧
  allChars isNormalizedChar n = true.
Proof.
  unfold validatePlaceholderKey, testPlaceholderRegex. split.
  - destruct (negb _ && _) eqn:Ht; [| done]. intros [= <-].
    apply andb_prop in Ht as [Hne Hall].
    split_and!; [done | by apply isEmpty_false, negb_true_iff |].
    rewrite normalize_mapChars in *. rewrite allChars_mapChars in *.
    revert Hall. apply allChars_impl, isPlaceholderChar_normalized.
  - intros (-> & Hne & Hall).
    apply isEmpty_false in Hne. rewrite Hne. simpl.
    by rewrite (allChars_impl _ _ _ isNormalizedChar_placeholder Hall).
Qed.

Lemma validatePlaceholderKey_accepts_witness :
  validatePlaceholderKey " Supabase_URL " = inr "supabase-url".
Proof. apply validatePlaceholderKey_accepts. by vm_compute. Defined.

(** ** parseIgnoreList *)

Lemma allChars_splitOn sep s seg :
  seg ∈ splitOn sep s →
  allChars (fun c => negb (bool_decide (c = sep))) seg = true.
Proof.
  revert seg. induction s as [|c s IH]; intros seg; simpl.
  - by intros ->%list_elem_of_singleton.
  - destruct (decide (c = sep)) as [->|Hne].
    + intros [->|H]%elem_of_cons; [done | by apply IH].
    + destruct (splitOn sep s) as [|seg0 segs].
      { intros ->%list_elem_of_singleton. simpl.
        by rewrite bool_decide_eq_false_2. }
      intros [->|H]%elem_of_cons.
      * simpl. rewrite bool_decide_eq_false_2 by done. simpl.
        apply IH, list_elem_of_here.
      * by apply IH, list_elem_of_further.
Qed.

(** X4.  Every name that parseIgnoreList returns is non-empty, has no white
    space at either end and holds no comma. *)
Theorem parseIgnoreList_entries (input x : string) :
  x ∈ parseIgnoreList input →
  x ≠ EmptyString ∧ trim x = x ∧
  allChars (fun c => negb (bool_decide (c = ","%char))) x = true.
Proof.
  unfold parseIgnoreList. destruct (isEmpty (trim input)).
  { by intros ?%elem_of_nil. }
  intros [Hin Hne]%list_elem_of_In%filter_In.
  apply list_elem_of_In, list_elem_of_fmap in Hin as (seg & -> & Hseg).
  split_and!.
  - by apply isEmpty_false, negb_true_iff.
  - apply trim_idem.
  - apply allChars_trim. by eapply allChars_splitOn.
Qed.

Lemma parseIgnoreList_entries_witness :
  "dist" ≠ EmptyString ∧ trim "dist" = "dist" ∧
  allChars (fun c => negb (bool_decide (c = ","%char))) "dist" = true.
Proof.
  apply (parseIgnoreList_entries "node_modules, dist ,,").
  vm_compute. apply list_elem_of_further, list_elem_of_here.
Defined.

(** ** parseEnvLine and parseEnvFile *)

Lemma spanChars_spec p s a b :
  spanChars p s = (a, b) →
  allChars p a = true ∧
  match b with String c _ => p c = false | EmptyString => True end.
Proof.
  revert a b. induction s as [|c s IH]; intros a b; simpl.
  - by intros [= <- <-].
  - destruct (p c) eqn:Hc; [| intros [= <- <-]; by simpl].
    destruct (spanChars p s) as [a' b'] eqn:Hs.
    intros [= <- <-]. destruct (IH _ _ eq_refl) as [Ha Hb].
    simpl. by rewrite Hc, Ha.
Qed.

Lemma spanChars_stop p a b :
  allChars p a = true →
  match b with String c _ => p c = false | EmptyString => True end →
  spanChars p (a ++ b)%string = (a, b).
Proof.
  intros Ha Hb. induction a as [|c a IH].
  - change (spanChars p b = (EmptyString, b)).
    destruct b as [|c b]; simpl; [done | by rewrite Hb].
  - simpl in Ha. apply andb_prop in Ha as [Hc Ha].
    change (spanChars p (String c (a ++ b)%string) = (String c a, b)).
    simpl. by rewrite Hc, IH.
Qed.

(** X5.  parseEnvLine returns a Blank line exactly for the lines that hold
    white space only (the empty line among them). *)
Theorem parseEnvLine_blank (line : string) :
  parseEnvLine line = Blank ↔ allChars isSpace line = true.
Proof.
  unfold parseEnvLine. rewrite isEmpty_trim.
  destruct (allChars isSpace line); [done |].
  destruct (startsWith "#" (trimStart line)); [done |].
  by destruct (matchEnvLine line).
Qed.

Lemma parseEnvLine_blank_witness :
  parseEnvLine (String "009" "  ") = Blank.
Proof. apply parseEnvLine_blank. reflexivity. Defined.

(** X6.  When parseEnvLine returns a key/value line, its [raw] is the line
    itself, its key is a non-empty run of key characters at the very start
    of the line, its value neither begins with white space nor holds a line
    terminator, and the line is nothing but the key, white space, [=],
    white space and the value. *)
Theorem parseEnvLine_keyvalue (line key value raw : string) :
  parseEnvLine line = KeyValue key value raw →
  raw = line ∧ key ≠ EmptyString ∧ allChars isKeyChar key = true ∧
  noLeadingSpace value ∧
  allChars (fun c => negb (isLineTerminator c)) value = true ∧
  ∃ ws1 ws2, allChars isSpace ws1 = true ∧ allChars isSpace ws2 = true ∧
             line = (key ++ ws1 ++ "=" ++ ws2 ++ value)%string.
Proof.
  unfold parseEnvLine. destruct (isEmpty (trim line)); [done |].
  destruct (startsWith "#" (trimStart line)); [done |].
  destruct (matchEnvLine line) as [m|] eqn:Hm; [| done].
  intros [= <- <- <-]. pose proof (matchEnvLine_decompose _ _ Hm) as Hdec.
  unfold matchEnvLine in Hm.
  destruct (spanChars isKeyChar line) as [k r1] eqn:H1.
  destruct k as [|c k]; [done |].
  destruct (spanChars isSpace r1) as [ws1 r2] eqn:H2.
  destruct r2 as [|c2 r3]; [done |].
  assert (c2 = "="%char) as ->.
  { ascii_cases c2; done. }
  destruct (spanChars isSpace r3) as [ws2 v] eqn:H3.
  destruct (allChars _ v) eqn:Hv; [| done].
  injection Hm as <-. cbn [m_key m_ws1 m_ws2 m_value] in *.
  apply spanChars_spec in H1 as [Hk _], H2 as [Hw1 _], H3 as [Hw2 Hlead].
  split_and!; try done. by exists ws1, ws2.
Qed.

Lemma parseEnvLine_keyvalue_witness :
  "PORT = 3000" = "PORT = 3000" ∧ "PORT" ≠ EmptyString ∧
  allChars isKeyChar "PORT" = true ∧ noLeadingSpace "3000" ∧
  allChars (fun c => negb (isLineTerminator c)) "3000" = true ∧
  ∃ ws1 ws2, allChars isSpace ws1 = true ∧ allChars isSpace ws2 = true ∧
             "PORT = 3000" = ("PORT" ++ ws1 ++ "=" ++ ws2 ++ "3000")%string.
Proof. apply (parseEnvLine_keyvalue "PORT = 3000"). reflexivity. Defined.

Lemma keyChar_not_space c : isKeyChar c = true → isSpace c = false.
Proof. ascii_cases c; vm_compute; done. Qed.

Lemma keyChar_not_hash c rest :
  isKeyChar c = true → startsWith "#" (String c rest) = false.
Proof. ascii_cases c; intros H; vm_compute in H; try done; reflexivity. Qed.

(** X7.  An assignment as writeEnvFile prints it parses back to the same
    key and value: for a non-empty key of key characters and a value that
    neither begins with white space nor holds a line terminator,
    parseEnvLine of [key=value] is the key/value line of that key and that
    value. *)
Theorem parse_rendered_assignment (key value raw : string) :
  key ≠ EmptyString → allChars isKeyChar key = true →
  noLeadingSpace value →
  allChars (fun c => negb (isLineTerminator c)) value = true →
  parseEnvLine (renderLine (KeyValue key value raw))
  = KeyValue key value (renderLine (KeyValue key value raw)).
Proof.
  intros Hne Hk Hlead Hv. cbn [renderLine].
  destruct key as [|c key]; [done |]. clear Hne.
  pose proof Hk as Hk'. simpl in Hk'. apply andb_prop in Hk' as [Hc _].
  set (rest := (key ++ String "=" value)%string).
  assert ((String c key ++ "=" ++ value)%string = String c rest) as Hline
    by reflexivity.
  rewrite !Hline. unfold parseEnvLine. rewrite isEmpty_trim.
  cbn [allChars trimStart]. rewrite (keyChar_not_space c Hc).
  cbn [andb]. rewrite keyChar_not_hash by done.
  assert (spanChars isKeyChar (String c rest)
          = (String c key, String "=" value)) as Hspan.
  { by apply (spanChars_stop isKeyChar (String c key) (String "=" value)). }
  assert (spanChars isSpace (String "=" value)
          = (EmptyString, String "=" value)) as Hws1 by reflexivity.
  assert (spanChars isSpace value = (EmptyString, value)) as Hws2.
  { destruct value as [|d value]; simpl; [done |].
    simpl in Hlead. by rewrite Hlead. }
  unfold matchEnvLine. rewrite Hspan, Hws1. cbv iota beta.
  rewrite Hws2, Hv. reflexivity.
Qed.

Lemma parse_rendered_assignment_witness :
  parseEnvLine (renderLine (KeyValue "DB_URL" "postgres://h:1/db?x=1" ""))
  = KeyValue "DB_URL" "postgres://h:1/db?x=1" "DB_URL=postgres://h:1/db?x=1".
Proof.
  apply (parse_rendered_assignment "DB_URL" "postgres://h:1/db?x=1" "");
    [done | reflexivity | reflexivity | reflexivity].
Defined.

Lemma splitLines_length content :
  length (splitLines content) = S (countLF content).
Proof.
  induction content as [|c rest IH]; [done |].
  cbn [splitLines countLF].
  destruct (decide (c = "010"%char)) as [->|Hlf]; [simpl; by rewrite IH |].
  destruct (bool_decide (c = "013"%char) && startsWith LF rest); [done |].
  destruct (splitLines rest); simpl in *; [done | done].
Qed.

(** X8.  parseEnvFile returns one line per physical line of the text: one
    more than the text has line feeds, and so never an empty list. *)
Theorem parseEnvFile_length (content : string) :
  length (parseEnvFile content) = S (countLF content).
Proof. unfold parseEnvFile. by rewrite length_fmap, splitLines_length. Qed.

(** ** generateEnvLocalLines *)

Lemma splitLast_Some s init l :
  splitLast s = Some (init, l) → s = (init ++ String l EmptyString)%string.
Proof.
  revert init. induction s as [|c s IH]; intros init; simpl; [done |].
  destruct (splitLast s) as [[init' l']|] eqn:Hs.
  - intros [= <- <-]. rewrite (IH init' eq_refl) at 1. reflexivity.
  - intros [= <- <-]. destruct s as [|d s]; [done |].
    simpl in Hs. by destruct (splitLast s) as [[? ?]|].
Qed.

Lemma splitLast_snoc init l :
  splitLast (init ++ String l EmptyString)%string = Some (init, l).
Proof.
  induction init as [|c init IH]; [done |].
  change (splitLast (String c (init ++ String l EmptyString)%string)
          = Some (String c init, l)).
  simpl. by rewrite IH.
Qed.

(** The bracket expression matches exactly the strings made of an opening
    bracket, an interior without line terminator and a closing bracket. *)
Lemma matchPlaceholder_Some s inner :
  matchPlaceholder s = Some inner ↔
  s = ("<" ++ inner ++ ">")%string ∧
  allChars (fun c => negb (isLineTerminator c)) inner = true.
Proof.
  split.
  - destruct s as [|c r]; [done |]. simpl.
    destruct (decide (c = "<"%char)) as [->|Hc];
      [| ascii_cases c; done].
    destruct (splitLast r) as [[init l]|] eqn:Hr; [| done].
    destruct (decide (l = ">"%char)) as [->|Hl];
      [| ascii_cases l; done].
    destruct (allChars _ init) eqn:Hall; [| done].
    intros [= <-]. split; [| done].
    apply splitLast_Some in Hr. by rewrite Hr.
  - intros [-> Hall].
    change (matchPlaceholder (String "<" (inner ++ String ">" EmptyString)%string)
            = Some inner).
    cbn [matchPlaceholder]. by rewrite splitLast_snoc, Hall.
Qed.

Lemma resolveLine_key table ln : lineKey (resolveLine table ln) = lineKey ln.
Proof.
  destruct ln as [t| |key value raw]; try done. simpl.
  destruct (matchPlaceholder (trim value)); [| done].
  by destruct (obj_get table _).
Qed.

(** X9.  Resolution keeps the shape of a template: as many lines, the same
    key on every line, and every comment and blank line as it was and where
    it was. *)
Theorem generateEnvLocalLines_shape (lines : list EnvLine)
    (table : gmap string string) :
  length (generateEnvLocalLines lines table) = length lines ∧
  lineKey <$> generateEnvLocalLines lines table = lineKey <$> lines ∧
  ∀ i ln, lines !! i = Some ln → isKeyValue ln = false →
          generateEnvLocalLines lines table !! i = Some ln.
Proof.
  unfold generateEnvLocalLines. split_and!.
  - apply length_fmap.
  - rewrite <- list_fmap_compose. apply list_fmap_ext.
    intros i ln _. apply resolveLine_key.
  - intros i ln Hi Hkv. rewrite list_lookup_fmap, Hi. by destruct ln.
Qed.

Lemma generateEnvLocalLines_shape_witness :
  generateEnvLocalLines
    [Comment "# api"; KeyValue "URL" "<supabase-url>" "URL=<supabase-url>"]
    {[ "supabase-url" := "http://x" ]} !! 0 = Some (Comment "# api").
Proof.
  apply generateEnvLocalLines_shape; reflexivity.
Defined.

(** X10.  Only a value that is, once trimmed, wholly a bracket expression
    is ever replaced: lines whose trimmed values are not of the form
    [<...>] come out of resolution unchanged, whatever the table holds. *)
Theorem literal_values_untouched (lines : list EnvLine)
    (table : gmap string string) :
  (∀ key value raw inner,
     KeyValue key value raw ∈ lines →
     trim value ≠ ("<" ++ inner ++ ">")%string) →
  generateEnvLocalLines lines table = lines.
Proof.
  intros H. unfold generateEnvLocalLines.
  rewrite <- (list_fmap_id lines) at 2. apply list_fmap_ext.
  intros i ln Hi. destruct ln as [t| |key value raw]; try done. simpl.
  destruct (matchPlaceholder (trim value)) as [inner|] eqn:Hm; [| done].
  apply matchPlaceholder_Some in Hm as [Hm _].
  destruct (H key value raw inner); [| done].
  apply list_elem_of_lookup. by exists i.
Qed.

Lemma literal_values_untouched_witness :
  generateEnvLocalLines [KeyValue "GREETING" "" "GREETING="]
                        {[ "x" := "1" ]}
  = [KeyValue "GREETING" "" "GREETING="].
Proof.
  apply literal_values_untouched.
  intros key value raw inner [= -> -> ->]%list_elem_of_singleton.
  discriminate.
Defined.

(** X11.  A bracketed placeholder whose normalized name is a key of the
    table is replaced by the value the table holds for it, and [raw] is
    rebuilt from the key and that value; the key is kept. *)
Theorem placeholder_resolved (table : gmap string string)
    (key value raw inner v : string) :
  trim value = ("<" ++ inner ++ ">")%string →
  allChars (fun c => negb (isLineTerminator c)) inner = true →
  table !! normalizePlaceholderName inner = Some v →
  generateEnvLocalLines [KeyValue key value raw] table
  = [KeyValue key v (key ++ "=" ++ v)%string].
Proof.
  intros Hv Hall Ht. unfold generateEnvLocalLines. cbn [fmap list_fmap resolveLine].
  assert (matchPlaceholder (trim value) = Some inner) as ->
    by by apply matchPlaceholder_Some.
  unfold obj_get. by rewrite Ht.
Qed.

Lemma placeholder_resolved_witness :
  generateEnvLocalLines [KeyValue "URL" " <Supabase_URL> " "URL= <Supabase_URL> "]
                        {[ "supabase-url" := "http://x" ]}
  = [KeyValue "URL" "http://x" "URL=http://x"].
Proof.
  exact (placeholder_resolved {[ "supabase-url" := "http://x" ]}
           "URL" " <Supabase_URL> " "URL= <Supabase_URL> " "Supabase_URL"
           "http://x" eq_refl eq_refl eq_refl).
Defined.

Lemma setAdd_mono x y set : y ∈ set → y ∈ setAdd x set.
Proof.
  unfold setAdd. destruct (bool_decide _); [done |].
  intros H. apply elem_of_app. by left.
Qed.

Lemma setAdd_in x set : x ∈ setAdd x set.
Proof.
  unfold setAdd. destruct (bool_decide (x ∈ set)) eqn:Hx.
  - by apply bool_decide_eq_true in Hx.
  - apply elem_of_app. right. apply list_elem_of_here.
Qed.

Lemma collectUsed_mono used lines y : y ∈ used → y ∈ collectUsed used lines.
Proof.
  unfold collectUsed. revert used.
  induction lines as [|ln lines IH]; intros used Hy; [done |].
  cbn [foldl]. apply IH. destruct ln as [t| |key value raw]; try done.
  destruct (matchPlaceholder (trim value)); [by apply setAdd_mono | done].
Qed.

Lemma collectUsed_complete used lines key value raw inner :
  KeyValue key value raw ∈ lines →
  matchPlaceholder (trim value) = Some inner →
  normalizePlaceholderName inner ∈ collectUsed used lines.
Proof.
  revert used. induction lines as [|ln lines IH]; intros used Hin Hm.
  - by apply elem_of_nil in Hin.
  - apply elem_of_cons in Hin as [<-|Hin].
    + unfold collectUsed. cbn [foldl]. rewrite Hm.
      apply (collectUsed_mono _ lines), setAdd_in.
    + unfold collectUsed. cbn [foldl]. by apply IH.
Qed.

(** X12.  The names that generateEnvAction collects from a template are
    all the names that resolution looks up in it: when reading the table
    gives [undefined] for each collected name, resolution returns the
    template unchanged. *)
Theorem unresolved_template_unchanged (lines : list EnvLine)
    (table : gmap string string) :
  (∀ name, name ∈ collectUsed [] lines → obj_get table name = JsUndefined) →
  generateEnvLocalLines lines table = lines.
Proof.
  intros H. unfold generateEnvLocalLines.
  rewrite <- (list_fmap_id lines) at 2. apply list_fmap_ext.
  intros i ln Hi. destruct ln as [t| |key value raw]; try done. simpl.
  destruct (matchPlaceholder (trim value)) as [inner|] eqn:Hm; [| done].
  rewrite H; [done |].
  eapply collectUsed_complete; [| done].
  apply list_elem_of_lookup. by exists i.
Qed.

Lemma unresolved_template_unchanged_witness :
  let lines := [KeyValue "URL" "<supabase-url>" "URL=<supabase-url>";
                KeyValue "PORT" "3000" "PORT=3000"; Comment "# note"; Blank] in
  generateEnvLocalLines lines {[ "host-ip" := "10.0.0.2" ]} = lines.
Proof.
  intros lines. apply unresolved_template_unchanged.
  intros name [= ->]%list_elem_of_singleton. reflexivity.
Defined.

(** ** mergeEnvLocal, further *)

Lemma walkLines_no_override E m : walkLines false E m = E.
Proof.
  revert m. induction E as [|ln E IH]; intros m; simpl; [done |].
  rewrite IH. by destruct ln.
Qed.

(** X13.  Without override the existing lines come first in the merged
    lines, each one as it was: merging only appends. *)
Theorem merge_no_override_prefix (E N : list EnvLine) :
  E `prefix_of` mergeEnvLocal E N false.
Proof.
  rewrite mergeEnvLocal_walk, walkLines_no_override. by eexists.
Qed.

(** X14.  Every key that the new lines assign is assigned in the merged
    lines, for either value of [override]. *)
Theorem merge_has_new_keys (E N : list EnvLine) (override : bool)
    (k : string) :
  k ∈ keysOf N → k ∈ keysOf (mergeEnvLocal E N override).
Proof.
  intros [nl Hnl]%keysOf_get_collect.
  apply elem_of_keysOf. rewrite merge_filter, Hnl.
  by destruct (List.filter (hasKey k) E), override.
Qed.

Lemma merge_has_new_keys_witness :
  "PORT" ∈ keysOf (mergeEnvLocal [Comment "# local"; KeyValue "DEBUG" "1" "DEBUG=1"]
                                 [KeyValue "PORT" "3000" "PORT=3000"] false).
Proof.
  apply merge_has_new_keys. vm_compute. apply list_elem_of_here.
Defined.

Lemma walkLines_app o L1 L2 m :
  walkLines o (L1 ++ L2) m =
  walkLines o L1 m ++ walkLines o L2 (walkMap o L1 m).
Proof.
  revert m. induction L1 as [|ln L1 IH]; intros m; simpl; [done |].
  by rewrite IH.
Qed.

Lemma walkMap_app o L1 L2 m :
  walkMap o (L1 ++ L2) m = walkMap o L2 (walkMap o L1 m).
Proof. revert m. induction L1 as [|ln L1 IH]; intros m; simpl; auto. Qed.

Lemma walkMap_same_keys o L1 L2 m :
  lineKey <$> L1 = lineKey <$> L2 → walkMap o L1 m = walkMap o L2 m.
Proof.
  revert L2 m. induction L1 as [|a L1 IH]; intros [|b L2] m; try done.
  intros [= Hab HL]. simpl. rewrite !stepMap_delete, Hab. by apply IH.
Qed.

Lemma stepLine_idem N o m ln :
  lookupOf N m → stepLine o m (stepLine o m ln) = stepLine o m ln.
Proof.
  intros Hm. destruct ln as [t| |key v r]; try done. simpl.
  destruct o; simpl; [| done].
  destruct (JsMap.get key m) as [nl|] eqn:Hg; simpl; [| by rewrite Hg].
  destruct (lookupOf_get _ _ _ _ Hm Hg) as [Hk _].
  destruct nl as [t| |key' v' r']; try done.
  injection Hk as ->. simpl. by rewrite Hg.
Qed.

Lemma walkLines_fixed N o E m :
  lookupOf N m → walkLines o (walkLines o E m) m = walkLines o E m.
Proof.
  revert m. induction E as [|ln E IH]; intros m Hm; simpl; [done |].
  rewrite (stepLine_idem N) by done. f_equal.
  assert (stepMap o m (stepLine o m ln) = stepMap o m ln) as ->.
  { by rewrite !stepMap_delete, (stepLine_key N). }
  by apply IH, lookupOf_stepMap.
Qed.

Lemma walk_values N o m :
  lookupOf N m →
  walkLines o (JsMap.values m) m = JsMap.values m ∧
  walkMap o (JsMap.values m) m = [].
Proof.
  unfold JsMap.values.
  induction m as [|[k nl] m IH]; intros Hm; [done |].
  pose proof (lookupOf_tail _ _ _ Hm) as Hm'.
  destruct Hm as [_ Hin].
  destruct (Hin k nl (list_elem_of_here _ _)) as [Hk _].
  destruct nl as [t| |key v r]; try done. injection Hk as ->.
  cbn [map snd walkLines walkMap].
  assert (stepLine o ((k, KeyValue k v r) :: m) (KeyValue k v r)
          = KeyValue k v r) as ->.
  { simpl. destruct o; simpl; [| done]. by rewrite decide_True. }
  assert (stepMap o ((k, KeyValue k v r) :: m) (KeyValue k v r) = m) as ->.
  { simpl. destruct o; simpl; by rewrite !decide_True. }
  destruct (IH Hm') as [-> ->]. done.
Qed.

(** X15.  Merging is idempotent: merging the same new lines once more into
    the lines that a merge produced gives these lines again, so a second
    run of the tool over its own output changes nothing. *)
Theorem merge_idempotent (E N : list EnvLine) (override : bool) :
  mergeEnvLocal (mergeEnvLocal E N override) N override
  = mergeEnvLocal E N override.
Proof.
  pose proof (lookupOf_collect N) as Hm.
  rewrite (mergeEnvLocal_walk E). rewrite mergeEnvLocal_walk.
  set (m0 := collectKeyValues N) in *.
  rewrite walkLines_app, walkMap_app.
  rewrite (walkLines_fixed N) by done.
  rewrite (walkMap_same_keys override (walkLines override E m0) E)
    by by apply (walkLines_keys N).
  destruct (walk_values N override (walkMap override E m0)) as [-> ->].
  { by apply lookupOf_walkMap. }
  by rewrite app_nil_r.
Qed.

(** ** writeEnvFile *)

Lemma get_delete_None {V} k k' (m : JsMap.t V) :
  JsMap.get k m = None → JsMap.get k (JsMap.delete k' m) = None.
Proof.
  rewrite !JsMapFacts.get_None_keys. intros H Hin. apply H.
  by eapply JsMapFacts.keys_delete_subseteq.
Qed.

Lemma get_all_None {V} (m : JsMap.t V) : (∀ k, JsMap.get k m = None) → m = [].
Proof.
  destruct m as [|[k v] m]; [done |]. intros H. specialize (H k).
  simpl in H. by rewrite decide_True in H.
Qed.

Lemma filter_snoc {A} (f : A → bool) l x :
  List.filter f (l ++ [x]) = List.filter f l ++ (if f x then [x] else []).
Proof. rewrite List.filter_app. simpl. by destruct (f x). Qed.

(** The lines that the loop of lines 48-60 pushes for a key: the line that
    the map holds for it, once, at the first line that assigns it. *)
Lemma writeStep_filter N k L st :
  lookupOf N (linesMap st) →
  List.filter (hasKey k) (finalLines (foldl writeStep st L)) =
    List.filter (hasKey k) (finalLines st) ++
    match List.filter (hasKey k) L, JsMap.get k (linesMap st) with
    | _ :: _, Some l => [l]
    | _, _ => []
    end
  ∧ JsMap.get k (linesMap (foldl writeStep st L)) =
    match List.filter (hasKey k) L with
    | [] => JsMap.get k (linesMap st)
    | _ => None
    end.
Proof.
  revert st. induction L as [|ln L IH]; intros st Hm.
  - cbn. rewrite app_nil_r. split; [done |]. by destruct (JsMap.get k _).
  - cbn [foldl List.filter].
    destruct ln as [t| |key v r].
    + destruct (IH (writeStep st (Comment t)) Hm) as [-> ->]. cbn.
      by rewrite filter_snoc, app_nil_r.
    + destruct (IH (writeStep st Blank) Hm) as [-> ->]. cbn.
      by rewrite filter_snoc, app_nil_r.
    + cbn [writeStep].
      destruct (JsMap.get key (linesMap st)) as [l|] eqn:Hg.
      * destruct (lookupOf_get _ _ _ _ Hm Hg) as [Hl _].
        destruct (IH (mkWriteState (finalLines st ++ [l])
                        (JsMap.delete key (linesMap st)))) as [-> ->].
        { by apply lookupOf_delete. }
        cbn [finalLines linesMap]. rewrite filter_snoc.
        destruct (decide (key = k)) as [->|Hne].
        -- assert (hasKey k l = true) as -> by by apply hasKey_true.
           assert (hasKey k (KeyValue k v r) = true) as ->
             by by apply hasKey_true.
           rewrite JsMapFacts.get_delete_eq by apply Hm. rewrite Hg.
           rewrite <- app_assoc. split; by destruct (List.filter _ L).
        -- assert (hasKey k l = false) as ->
             by (apply hasKey_false; rewrite Hl; congruence).
           assert (hasKey k (KeyValue key v r) = false) as ->
             by (apply hasKey_false; simpl; congruence).
           rewrite JsMapFacts.get_delete_ne by done.
           by rewrite app_nil_r.
      * destruct (IH st Hm) as [-> ->].
        destruct (decide (key = k)) as [->|Hne].
        -- assert (hasKey k (KeyValue k v r) = true) as ->
             by by apply hasKey_true.
           rewrite Hg. split; by destruct (List.filter _ L).
        -- assert (hasKey k (KeyValue key v r) = false) as ->
             by (apply hasKey_false; simpl; congruence).
           done.
Qed.

(** After the loop over the lines from which it was built, the map is
    empty. *)
Lemma writeStep_map_empty lines fl :
  linesMap (foldl writeStep (mkWriteState fl (collectKeyValues lines)) lines)
  = [].
Proof.
  apply get_all_None. intros k.
  destruct (writeStep_filter lines k lines
              (mkWriteState fl (collectKeyValues lines))) as [_ ->].
  { apply lookupOf_collect. }
  cbn [linesMap]. rewrite get_collect.
  by destruct (List.filter (hasKey k) lines).
Qed.

(** X16.  When a key is assigned on several lines and no extra variable is
    given, writeEnvFile renders a single line for it, the last of them:
    the lines that assign [k] in the rendered array are that one line, or
    none when no line assigns [k]. *)
Theorem write_one_line_per_key (lines : list EnvLine) (override : bool)
    (k : string) :
  List.filter (hasKey k) (writeFinalLines lines [] override)
  = match last (List.filter (hasKey k) lines) with
    | Some l => [l]
    | None => []
    end.
Proof.
  unfold writeFinalLines. cbn [applyExtraVars foldl].
  rewrite writeStep_map_empty. cbn [JsMap.values map foldl].
  destruct (writeStep_filter lines k lines
              (mkWriteState [] (collectKeyValues lines))) as [-> _].
  { apply lookupOf_collect. }
  cbn [finalLines linesMap app]. rewrite get_collect.
  destruct (List.filter (hasKey k) lines) as [|x l] eqn:Hf; [done |].
  by destruct (last (x :: l)).
Qed.

Lemma filter_hasKey_distinct L k v r :
  NoDup (keysOf L) → KeyValue k v r ∈ L →
  List.filter (hasKey k) L = [KeyValue k v r].
Proof.
  induction L as [|ln L IH]; intros Hnd Hin; [by apply elem_of_nil in Hin |].
  cbn [List.filter]. destruct (hasKey k ln) eqn:Hk.
  - apply hasKey_true in Hk. destruct ln as [t| |k' v' r']; try done.
    injection Hk as ->. cbn in Hnd. apply NoDup_cons in Hnd as [Hk Hnd].
    assert (List.filter (hasKey k) L = []) as ->.
    { destruct (List.filter (hasKey k) L) eqn:Hf; [done |].
      destruct Hk. apply elem_of_keysOf. by rewrite Hf. }
    apply elem_of_cons in Hin as [<-|Hin]; [done |].
    destruct Hk. apply elem_of_keysOf.
    intros Hf. assert (In (KeyValue k v r) (List.filter (hasKey k) L)) as H.
    { apply filter_In. split; [by apply list_elem_of_In | by apply hasKey_true]. }
    by rewrite Hf in H.
  - apply hasKey_false in Hk.
    apply elem_of_cons in Hin as [<-|Hin]; [done |].
    apply IH; [| done].
    unfold keysOf in *. cbn in Hnd. destruct (lineKey ln); [| done].
    by apply NoDup_cons in Hnd as [_ ?].
Qed.

Lemma keysOf_cons_keyvalue k v r L :
  keysOf (KeyValue k v r :: L) = k :: keysOf L.
Proof. done. Qed.

Lemma keysOf_cons_other ln L :
  isKeyValue ln = false → keysOf (ln :: L) = keysOf L.
Proof. by destruct ln. Qed.

Lemma elem_of_keysOf_line k v r L : KeyValue k v r ∈ L → k ∈ keysOf L.
Proof.
  intros Hin. apply elem_of_keysOf. intros Hf.
  assert (In (KeyValue k v r) (List.filter (hasKey k) L)) as H.
  { apply filter_In. split; [by apply list_elem_of_In | by apply hasKey_true]. }
  by rewrite Hf in H.
Qed.

(** The loop of lines 48-60 over lines of distinct keys, each of them held
    by the map under its key: every line is pushed as it is. *)
Lemma writeStep_distinct S st :
  NoDup (keysOf S) →
  (∀ k v r, KeyValue k v r ∈ S →
            JsMap.get k (linesMap st) = Some (KeyValue k v r)) →
  finalLines (foldl writeStep st S) = finalLines st ++ S ∧
  linesMap (foldl writeStep st S)
  = foldl (fun m k => JsMap.delete k m) (linesMap st) (keysOf S).
Proof.
  revert st. induction S as [|ln S IH]; intros st Hnd Hget.
  - cbn. by rewrite app_nil_r.
  - cbn [foldl]. destruct ln as [t| |k v r].
    + destruct (IH (writeStep st (Comment t))) as [-> ->]; [done | |].
      { intros k v r Hin. apply Hget. by apply list_elem_of_further. }
      cbn. by rewrite <- app_assoc.
    + destruct (IH (writeStep st Blank)) as [-> ->]; [done | |].
      { intros k v r Hin. apply Hget. by apply list_elem_of_further. }
      cbn. by rewrite <- app_assoc.
    + rewrite keysOf_cons_keyvalue in *.
      apply NoDup_cons in Hnd as [Hk Hnd].
      cbn [writeStep]. rewrite (Hget k v r) by apply list_elem_of_here.
      destruct (IH (mkWriteState (finalLines st ++ [KeyValue k v r])
                      (JsMap.delete k (linesMap st)))) as [-> ->];
        [done | |].
      { intros k' v' r' Hin. cbn [linesMap].
        rewrite JsMapFacts.get_delete_ne.
        - apply Hget. by apply list_elem_of_further.
        - intros ->. apply Hk. by eapply elem_of_keysOf_line. }
      cbn. by rewrite <- app_assoc.
Qed.

Lemma get_collect_distinct lines k v r :
  NoDup (keysOf lines) → KeyValue k v r ∈ lines →
  JsMap.get k (collectKeyValues lines) = Some (KeyValue k v r).
Proof.
  intros Hnd Hin. rewrite get_collect.
  by rewrite (filter_hasKey_distinct lines k v r).
Qed.

Lemma write_distinct_render lines override :
  NoDup (keysOf lines) →
  writeEnvFile lines [] override = renderLines lines.
Proof.
  intros Hnd. unfold writeEnvFile. cbn [applyExtraVars foldl].
  rewrite writeStep_map_empty. cbn [JsMap.values map foldl].
  destruct (writeStep_distinct lines
              (mkWriteState [] (collectKeyValues lines))) as [-> _];
    [done | | done].
  intros k v r Hin. by apply get_collect_distinct.
Qed.

(** X17.  With no extra variable, writeEnvFile writes lines that assign
    each key at most once exactly as they are rendered, one after the
    other: nothing is dropped, added or moved. *)
Theorem writeEnvFile_distinct_keys (lines : list EnvLine) (override : bool) :
  NoDup (keysOf lines) →
  writeEnvFile lines [] override = renderLines lines.
Proof. apply write_distinct_render. Qed.

Lemma writeEnvFile_distinct_keys_witness :
  let lines := [Comment "# app"; KeyValue "PORT" "3000" "PORT=3000"; Blank;
                KeyValue "HOST" "h" "HOST = h"] in
  writeEnvFile lines [] true = renderLines lines.
Proof.
  intros lines. apply writeEnvFile_distinct_keys.
  vm_compute. apply NoDup_cons. split.
  - by intros ?%list_elem_of_singleton.
  - apply NoDup_singleton.
Defined.

Lemma applyExtraVars_present extraVars m :
  (∀ k v, (k, v) ∈ extraVars → JsMap.has k m = true) →
  applyExtraVars false extraVars m = m.
Proof.
  unfold applyExtraVars. induction extraVars as [|[k v] extras IH]; [done |].
  intros H. cbn [foldl]. rewrite (H k v) by apply list_elem_of_here.
  apply IH. intros k' v' Hin. apply (H k' v'). by apply list_elem_of_further.
Qed.

(** X18.  Without override, extra variables whose keys the lines already
    assign change nothing: the text written is the text written with no
    extra variable at all. *)
Theorem write_no_override_keeps_assigned (lines : list EnvLine)
    (extraVars : list (string * string)) :
  (∀ k v, (k, v) ∈ extraVars → k ∈ keysOf lines) →
  writeEnvFile lines extraVars false = writeEnvFile lines [] false.
Proof.
  intros H. unfold writeEnvFile.
  rewrite (applyExtraVars_present extraVars); [done |].
  intros k v Hin. unfold JsMap.has.
  destruct (proj1 (keysOf_get_collect k lines) (H k v Hin)) as [l ->]. done.
Qed.

Lemma write_no_override_keeps_assigned_witness :
  writeEnvFile [KeyValue "PORT" "9999" "PORT=9999"] [("PORT", "1")] false
  = writeEnvFile [KeyValue "PORT" "9999" "PORT=9999"] [] false.
Proof.
  apply write_no_override_keeps_assigned.
  intros k v [= -> ->]%list_elem_of_singleton.
  vm_compute. apply list_elem_of_here.
Defined.

Lemma get_app {V} k (m1 m2 : JsMap.t V) :
  JsMap.get k (m1 ++ m2) =
  match JsMap.get k m1 with Some v => Some v | None => JsMap.get k m2 end.
Proof.
  induction m1 as [|[k0 v0] m1 IH]; simpl; [done |].
  by destruct (decide (k0 = k)).
Qed.

Lemma delete_app_l {V} k (m1 m2 : JsMap.t V) :
  is_Some (JsMap.get k m1) →
  JsMap.delete k (m1 ++ m2) = JsMap.delete k m1 ++ m2.
Proof.
  induction m1 as [|[k0 v0] m1 IH]; simpl; [by intros [? ?] |].
  destruct (decide (k0 = k)); [done |]. intros H. simpl. by rewrite IH.
Qed.

Lemma foldl_delete_app {V} ks (m X : JsMap.t V) :
  NoDup ks → (∀ k, k ∈ ks → is_Some (JsMap.get k m)) →
  foldl (fun m k => JsMap.delete k m) (m ++ X) ks
  = foldl (fun m k => JsMap.delete k m) m ks ++ X.
Proof.
  revert m. induction ks as [|k ks IH]; intros m Hnd H; [done |].
  apply NoDup_cons in Hnd as [Hk Hnd]. cbn [foldl].
  rewrite delete_app_l by apply H, list_elem_of_here.
  apply IH; [done |]. intros k' Hk'.
  rewrite JsMapFacts.get_delete_ne by (intros ->; done).
  by apply H, list_elem_of_further.
Qed.

Lemma applyExtraVars_fresh override extraVars (m : JsMap.t EnvLine) :
  NoDup extraVars.*1 →
  (∀ k, k ∈ extraVars.*1 → JsMap.get k m = None) →
  applyExtraVars override extraVars m
  = m ++ ((fun kv => (kv.1, extraLine kv.1 kv.2)) <$> extraVars).
Proof.
  unfold applyExtraVars. revert m.
  induction extraVars as [|[k v] extras IH]; intros m Hnd Hfresh.
  - cbn. by rewrite app_nil_r.
  - cbn in Hnd. apply NoDup_cons in Hnd as [Hk Hnd].
    cbn [foldl]. unfold JsMap.has.
    rewrite (Hfresh k) by apply list_elem_of_here.
    rewrite set_fresh by apply Hfresh, list_elem_of_here.
    rewrite IH; [by rewrite <- app_assoc | done |].
    intros k' Hk'. rewrite get_app.
    rewrite (Hfresh k') by by apply list_elem_of_further.
    simpl. rewrite decide_False; [done |]. by intros ->.
Qed.

Lemma pushLeftover_fresh fl vals :
  NoDup vals → (∀ x, x ∈ vals → x ∉ fl) →
  foldl pushLeftover fl vals = fl ++ vals.
Proof.
  revert fl. induction vals as [|x vals IH]; intros fl Hnd Hfresh.
  - cbn. by rewrite app_nil_r.
  - apply NoDup_cons in Hnd as [Hx Hnd]. cbn [foldl].
    unfold pushLeftover at 2.
    rewrite bool_decide_eq_false_2 by apply Hfresh, list_elem_of_here.
    rewrite IH; [by rewrite <- app_assoc | done |].
    intros y Hy [Hin|Hin%list_elem_of_singleton]%elem_of_app.
    + by apply (Hfresh y); [apply list_elem_of_further |].
    + by subst.
Qed.

Lemma extraLines_NoDup (extraVars : list (string * string)) :
  NoDup extraVars.*1 →
  NoDup ((fun kv => extraLine kv.1 kv.2) <$> extraVars).
Proof.
  induction extraVars as [|[k v] extras IH]; intros Hnd; [apply NoDup_nil_2 |].
  cbn in *. apply NoDup_cons in Hnd as [Hk Hnd].
  apply NoDup_cons. split; [| by apply IH].
  intros [[k' v'] [Heq Hin]]%list_elem_of_fmap. simpl in Heq.
  injection Heq as <- <-. apply Hk.
  apply list_elem_of_fmap. by exists (k, v).
Qed.

(** X19.  Extra variables under keys that are new, to lines that assign
    each key at most once, are appended after the lines, one assignment
    per variable and in the order of the variables; the lines themselves
    are written as they are. *)
Theorem write_appends_new_vars (lines : list EnvLine)
    (extraVars : list (string * string)) (override : bool) :
  NoDup (keysOf lines ++ extraVars.*1) →
  writeEnvFile lines extraVars override
  = renderLines (lines ++ ((fun kv => extraLine kv.1 kv.2) <$> extraVars)).
Proof.
  intros (Hlines & Hdisj & Hextras)%NoDup_app.
  unfold writeEnvFile. f_equal.
  set (m0 := collectKeyValues lines).
  set (X := (fun kv => (kv.1, extraLine kv.1 kv.2)) <$> extraVars).
  assert (applyExtraVars override extraVars m0 = m0 ++ X) as ->.
  { apply applyExtraVars_fresh; [done |]. intros k Hk.
    apply eq_None_not_Some. intros Hs%keysOf_get_collect.
    by apply (Hdisj k). }
  destruct (writeStep_distinct lines (mkWriteState [] (m0 ++ X)))
    as [-> ->]; [done | |].
  { intros k v r Hin. cbn [linesMap]. rewrite get_app.
    unfold m0. by rewrite (get_collect_distinct lines k v r). }
  cbn [finalLines linesMap app].
  rewrite foldl_delete_app; [| done |].
  2:{ intros k Hk. by apply keysOf_get_collect. }
  destruct (writeStep_distinct lines (mkWriteState [] m0)) as [_ Hmap];
    [done | |].
  { intros k v r Hin. by apply get_collect_distinct. }
  cbn [linesMap] in Hmap. rewrite <- Hmap.
  unfold m0. rewrite writeStep_map_empty. cbn [app].
  assert (JsMap.values X = (fun kv => extraLine kv.1 kv.2) <$> extraVars) as ->.
  { unfold JsMap.values, X. rewrite <- list_fmap_compose.
    by apply list_fmap_ext. }
  apply pushLeftover_fresh; [by apply extraLines_NoDup |].
  intros x [[k v] [-> Hin]]%list_elem_of_fmap Hx. simpl in Hx.
  apply (Hdisj k); [by eapply elem_of_keysOf_line |].
  apply list_elem_of_fmap. by exists (k, v).
Qed.

Lemma write_appends_new_vars_witness :
  writeEnvFile [Comment "# app"; KeyValue "PORT" "3000" "PORT=3000"]
               [("API_KEY", "k"); ("MODE", "dev")] false
  = renderLines [Comment "# app"; KeyValue "PORT" "3000" "PORT=3000";
                 KeyValue "API_KEY" "k" "API_KEY=k";
                 KeyValue "MODE" "dev" "MODE=dev"].
Proof.
  apply (write_appends_new_vars
           [Comment "# app"; KeyValue "PORT" "3000" "PORT=3000"]
           [("API_KEY", "k"); ("MODE", "dev")] false).
  apply (bool_decide_unpack _). by vm_compute.
Defined.

(** ** One destination file, end to end *)

Lemma render_parse_lines ls :
  forallb lossless ls = true →
  renderLine <$> (parseEnvLine <$> ls) = ls.
Proof.
  induction ls as [|l ls IH]; [done |].
  simpl. intros [Hl Hls]%andb_prop.
  cbn. rewrite render_parse_lossless by done. f_equal. by apply IH.
Qed.

Lemma merge_no_override_covered E N :
  (∀ k, k ∈ keysOf N → k ∈ keysOf E) → mergeEnvLocal E N false = E.
Proof.
  intros Hsub. rewrite mergeEnvLocal_walk, walkLines_no_override.
  assert (walkMap false E (collectKeyValues N) = []) as ->;
    [| by rewrite app_nil_r].
  apply get_all_None. intros k.
  destruct (walk_filter N false k E _ (lookupOf_collect N)) as [_ ->].
  destruct (List.filter (hasKey k) E) eqn:Hf; [| done].
  apply eq_None_not_Some. intros HN%keysOf_get_collect%Hsub%elem_of_keysOf.
  done.
Qed.

(** X20.  A destination that already assigns every key of the template is
    written back as it is: with merging on and no dry run, no extra
    variable, a destination whose lines assign each key once and have no
    white space around [=] nor lines of white space only, the text written
    is the text of the destination, with each CR-LF turned into LF. *)
Theorem up_to_date_destination_unchanged (options : FillOptions)
    (replaced : list EnvLine) (content : string) :
  o_merge options = true → o_dryRun options = false →
  forallb lossless (splitLines content) = true →
  NoDup (keysOf (parseEnvFile content)) →
  (∀ k, k ∈ keysOf replaced → k ∈ keysOf (parseEnvFile content)) →
  processExample options replaced [] (Some content)
  = Some (normalizeNewlines content).
Proof.
  intros Hm Hd Hls Hnd Hsub. unfold processExample, canOverride.
  rewrite Hm, Hd. cbn [negb andb]. f_equal.
  rewrite merge_no_override_covered by done.
  rewrite write_distinct_render by done.
  unfold renderLines, parseEnvFile.
  by rewrite render_parse_lines, join_splitLines.
Qed.

Lemma up_to_date_destination_unchanged_witness :
  processExample (mkFillOptions true true false)
    [KeyValue "PORT" "3000" "PORT=3000"] []
    (Some ("# local" ++ String "013" LF ++ "PORT=9999")%string)
  = Some ("# local" ++ LF ++ "PORT=9999")%string.
Proof.
  apply (up_to_date_destination_unchanged (mkFillOptions true true false)
           [KeyValue "PORT" "3000" "PORT=3000"]
           ("# local" ++ String "013" LF ++ "PORT=9999")%string);
    try reflexivity.
  - apply (bool_decide_unpack _). by vm_compute.
  - intros k [= ->]%list_elem_of_singleton. vm_compute.
    apply list_elem_of_here.
Defined.

(** ** The status source, further *)

Lemma obj_set_lookup name s obj k :
  obj_set name s obj !! k =
  if bool_decide (k = name ∧ name ≠ "__proto__") then Some s else obj !! k.
Proof.
  unfold obj_set. destruct (bool_decide (name = "__proto__")) eqn:Hp.
  - apply bool_decide_eq_true in Hp. rewrite bool_decide_eq_false_2; [done |].
    by intros [_ ?].
  - apply bool_decide_eq_false in Hp.
    destruct (decide (k = name)) as [->|Hne].
    + rewrite bool_decide_eq_true_2 by done. apply lookup_insert_eq.
    + rewrite bool_decide_eq_false_2 by (by intros [? _]).
      by apply lookup_insert_ne.
Qed.








(** ** parseKeyValuePairs, further *)

Lemma allChars_splitOn_pres q sep s seg :
  allChars q s = true → seg ∈ splitOn sep s → allChars q seg = true.
Proof.
  revert seg. induction s as [|c s IH]; intros seg Hq; simpl.
  - by intros ->%list_elem_of_singleton.
  - simpl in Hq. apply andb_prop in Hq as [Hc Hs].
    destruct (decide (c = sep)) as [->|Hne].
    + intros [->|H]%elem_of_cons; [done | by apply IH].
    + destruct (splitOn sep s) as [|seg0 segs].
      { intros ->%list_elem_of_singleton. simpl. by rewrite Hc. }
      intros [->|H]%elem_of_cons.
      * simpl. rewrite Hc. apply IH; [done | apply list_elem_of_here].
      * apply IH; [done | by apply list_elem_of_further].
Qed.

Lemma allChars_and p q s :
  allChars p s = true → allChars q s = true →
  allChars (fun c => p c && q c) s = true.
Proof.
  induction s as [|c s IH]; simpl; [done |].
  intros [-> Hp]%andb_prop [-> Hq]%andb_prop. by rewrite IH.
Qed.

Lemma segment_chars input p i :
  p ∈ splitOn ","%char input →
  allChars (fun c => negb (bool_decide (c = ","%char))
                     && negb (bool_decide (c = "="%char)))
           (nth i (splitOn "="%char p) EmptyString) = true.
Proof.
  intros Hp.
  destruct (nth_in_or_default i (splitOn "="%char p) EmptyString) as [Hin| ->];
    [| done].
  apply list_elem_of_In in Hin. apply allChars_and.
  - eapply allChars_splitOn_pres; [| done]. by eapply allChars_splitOn.
  - by eapply allChars_splitOn.
Qed.

Lemma storePair_foldl_lookup pairs acc k v :
  foldl storePair acc pairs !! k = Some v →
  acc !! k = Some v ∨
  ∃ p, p ∈ pairs ∧ k = trim (firstSegment p) ∧ v = trim (secondSegment p).
Proof.
  revert acc. induction pairs as [|p pairs IH]; intros acc; [by left |].
  cbn [foldl]. intros [H|(q & Hq & ? & ?)]%IH.
  - unfold storePair in H. rewrite obj_set_lookup in H.
    destruct (bool_decide _) eqn:Hb; [| by left].
    apply bool_decide_eq_true in Hb as [-> _]. injection H as <-.
    right. exists p. split; [apply list_elem_of_here | done].
  - right. exists q. split; [by apply list_elem_of_further | done].
Qed.

(** X24.  Every key and value that parseKeyValuePairs returns has no white
    space at either end and holds neither a comma nor an equals sign. *)
Theorem parseKeyValuePairs_entries (input : string)
    (result : gmap string string) (k v : string) :
  parseKeyValuePairs input = inr result → result !! k = Some v →
  let clean s :=
    trim s = s ∧
    allChars (fun c => negb (bool_decide (c = ","%char))
                       && negb (bool_decide (c = "="%char))) s = true in
  clean k ∧ clean v.
Proof.
  unfold parseKeyValuePairs. destruct (isEmpty (trim input)).
  { intros [= <-]. by rewrite lookup_empty. }
  rewrite parsePairs_foldl.
  destruct (List.find malformedPair _); [done |]. intros [= <-].
  intros [H|(p & Hp & -> & ->)]%storePair_foldl_lookup;
    [by rewrite lookup_empty in H |].
  unfold firstSegment, secondSegment. cbv zeta. split_and!.
  - apply trim_idem.
  - by eapply allChars_trim, segment_chars.
  - apply trim_idem.
  - by eapply allChars_trim, segment_chars.
Qed.

Lemma parseKeyValuePairs_entries_witness :
  (trim "url" = "url" ∧
   allChars (fun c => negb (bool_decide (c = ","%char))
                      && negb (bool_decide (c = "="%char))) "url" = true) ∧
  (trim "http://x?a" = "http://x?a" ∧
   allChars (fun c => negb (bool_decide (c = ","%char))
                      && negb (bool_decide (c = "="%char))) "http://x?a"
   = true).
Proof.
  apply (parseKeyValuePairs_entries " url = http://x?a=1 , port=1"
           {[ "url" := "http://x?a"; "port" := "1" ]} "url" "http://x?a");
    by vm_compute.
Defined.
